(** * The FHEVM provisioning controller and its public-key cache

    A shallow embedding of
    - [GenericStringStorage] (src/fhevm/GenericStringStorage.ts),
    - [PublicKeyStorage] and [createFhevmInstance]
      (src/fhevm/internal/PublicKeyStorage.ts), and
    - the [useFhevm] hook (src/unnamed/part_000), and
    - the [FHECounter] contract (src/FHECounter.sol),
    followed by the properties of the specification that concern them and
    by further properties read off the code.

    Asynchronous code is modelled by explicit state passing: a JavaScript
    function becomes a computation in the monad [M], which threads the
    [World] (clock, IndexedDB object store, fault schedule, the abort
    signal, and a chronological trace of the effects the outside can see)
    and returns either a value or the error that was thrown. *)

From Stdlib Require Import ZArith Lia Ascii.
From stdpp Require Import base option list strings pretty gmap fin_maps.

(** ** Errors and results *)

Inductive Error :=
| JsError (message : string)      (* new Error(message) *)
| IoError                         (* an IndexedDB request that failed *)
| SyntaxError                     (* thrown by JSON.parse *)
| ExternalError (message : string). (* thrown by the SDK, the provider or the instance *)

Inductive Result (A : Type) :=
| Ok (a : A)
| Throw (e : Error).
Arguments Ok {A} a.
Arguments Throw {A} e.

(** error.message.  What is thrown is taken to be an Error object: a
    promise rejected with null or undefined, whose message cannot be read,
    is outside this model. *)
Definition error_message (e : Error) : string :=
  match e with
  | JsError m => m
  | IoError => "IndexedDB request failed"
  | SyntaxError => "Unexpected token in JSON"
  | ExternalError m => m
  end.

(** ** Cache entries and stored text *)

Record CacheEntry := { publicKey : string; timestamp : Z }.

Global Instance CacheEntry_eq_dec : EqDecision CacheEntry.
Proof. solve_decision. Defined.

(** The object store keeps strings.  The cache looks at a stored string
    only through its truthiness and through [JSON.parse], so a string is
    represented by what those two observe. *)
Inductive Text :=
| TJson (table : gmap string CacheEntry) (* JSON.stringify of this table *)
| TMalformed                             (* non-empty, JSON.parse throws *)
| TEmpty.                                (* the empty string, falsy *)

(** ** Configurations handed to the external builder *)

Inductive Provider :=
| PUrl (url : string)    (* a string, wrapped in ethers.JsonRpcProvider *)
| PObj (ref : nat).      (* any other provider object, by reference *)

Global Instance Provider_eq_dec : EqDecision Provider.
Proof. solve_decision. Defined.

Inductive SdkConfig :=
| SepoliaCfg (provider : option Provider)
| MockCfg (chainId : Z) (rpcUrl : string) (provider : option Provider)
| DefaultCfg (chainId : Z) (provider : option Provider)
             (publicKey : option string)
             (kmsContractAddress aclContractAddress : option string).

(** ** JavaScript values reaching the encryption entry points *)

Inductive JsNumber :=
| Integral (z : Z)     (* a double holding an integer; -0 is [Integral 0] *)
| NonIntegral.         (* a fraction, NaN, Infinity or -Infinity *)

Inductive JsValue :=
| VUndefined
| VNull
| VBoolean (b : bool)
| VNumber (n : JsNumber)
| VBigInt (z : Z)
| VString (s : string)
| VObject.

Inductive JsType :=
| TyUndefined | TyObject | TyBoolean | TyNumber | TyBigInt | TyString.

Global Instance JsType_eq_dec : EqDecision JsType.
Proof. solve_decision. Defined.

Definition typeof (v : JsValue) : JsType :=
  match v with
  | VUndefined => TyUndefined
  | VNull => TyObject
  | VBoolean _ => TyBoolean
  | VNumber _ => TyNumber
  | VBigInt _ => TyBigInt
  | VString _ => TyString
  | VObject => TyObject
  end.

Definition Uint8Array := list Z.

(** ** Suspension points of [createFhevmInstance] *)

Inductive Await :=
| AwSdkLoad | AwGetNetwork | AwCleanup | AwCacheGet
| AwInitSDK | AwCreateInstance | AwGetPublicKey | AwCacheSet.

Global Instance Await_eq_dec : EqDecision Await.
Proof. solve_decision. Defined.

(** ** Effects visible from outside, in the order they happen *)

Inductive Event :=
| EvWarn (origin : string)            (* console.warn *)
| EvError (origin : string)           (* console.error *)
| EvDbPut (key : string)              (* a completed db.put *)
| EvDbDelete (key : string)           (* a completed db.delete *)
| EvAbort                             (* the attempt's signal becomes aborted *)
| EvInitSDK (cfg : SdkConfig)         (* relayerSDK.initSDK(cfg) *)
| EvCreateInstance (cfg : SdkConfig)  (* relayerSDK.createInstance(cfg) *)
| EvGetPublicKey                      (* fhevmInstance.getPublicKey() *)
| EvEncrypt32 (value : JsValue)       (* fhevmInstance.encrypt32(value) *)
| EvEncrypt64 (value : JsValue)       (* fhevmInstance.encrypt64(value) *)
| EvEncryptBool (value : JsValue).    (* fhevmInstance.encryptBool(value) *)

(** ** The world *)

Record World := mkWorld {
  now : Z;                               (* Date.now() *)
  db : gmap string Text;                 (* object store 'keyValueStore' *)
  faults : list bool;                    (* one decision per storage request:
                                            true = the request rejects *)
  memoryCache : gmap string CacheEntry;  (* this.memoryCache *)
  aborted : bool;                        (* signal.aborted *)
  abortDuring : option Await;            (* when abort() is called, if ever *)
  trace : list Event
}.

Definition set_db (f : gmap string Text → gmap string Text) (w : World) : World :=
  mkWorld (now w) (f (db w)) (faults w) (memoryCache w) (aborted w) (abortDuring w) (trace w).
Definition set_faults (fs : list bool) (w : World) : World :=
  mkWorld (now w) (db w) fs (memoryCache w) (aborted w) (abortDuring w) (trace w).
Definition set_memoryCache (f : gmap string CacheEntry → gmap string CacheEntry) (w : World) : World :=
  mkWorld (now w) (db w) (faults w) (f (memoryCache w)) (aborted w) (abortDuring w) (trace w).
Definition set_aborted (b : bool) (w : World) : World :=
  mkWorld (now w) (db w) (faults w) (memoryCache w) b (abortDuring w) (trace w).
Definition emit (e : Event) (w : World) : World :=
  mkWorld (now w) (db w) (faults w) (memoryCache w) (aborted w) (abortDuring w) (trace w ++ [e]).

(** ** The monad of JavaScript computations *)

Definition M (A : Type) : Type := World → Result A * World.

Definition ret {A} (a : A) : M A := λ w, (Ok a, w).
Definition throw {A} (e : Error) : M A := λ w, (Throw e, w).
Definition bind {A B} (m : M A) (k : A → M B) : M B :=
  λ w, match m w with
       | (Ok a, w') => k a w'
       | (Throw e, w') => (Throw e, w')
       end.
(** try { m } catch (error) { h error } *)
Definition tryCatch {A} (m : M A) (h : Error → M A) : M A :=
  λ w, match m w with
       | (Ok a, w') => (Ok a, w')
       | (Throw e, w') => h e w'
       end.
Definition get_world : M World := λ w, (Ok w, w).
Definition modify (f : World → World) : M unit := λ w, (Ok tt, f w).
Definition tell (e : Event) : M unit := modify (emit e).

Notation "'let*' x ':=' m 'in' k" := (bind m (λ x, k))
  (at level 10, x binder, m at level 100, k at level 200).
Notation "m ';;' k" := (bind m (λ _, k))
  (at level 100, k at level 200, right associativity).

(** ** GenericStringStorage *)

Module GenericStringStorage.

(** One IndexedDB round trip ([getDB] and the request on it); the fault
    schedule decides whether it rejects. *)
Definition request : M unit :=
  let* w := get_world in
  match faults w with
  | true :: fs => modify (set_faults fs) ;; throw IoError
  | false :: fs => modify (set_faults fs)
  | [] => ret tt
  end.

(** value || null *)
Definition or_null (v : option Text) : option Text :=
  match v with
  | Some TEmpty => None
  | _ => v
  end.

Definition get (key : string) : M (option Text) :=
  tryCatch
    (request ;;
     let* w := get_world in
     ret (or_null (db w !! key)))
    (λ error, tell (EvWarn "GenericStringStorage.get") ;; ret None).

Definition set (key : string) (value : Text) : M unit :=
  tryCatch
    (request ;;
     modify (set_db (insert key value)) ;;
     tell (EvDbPut key))
    (λ error, tell (EvError "GenericStringStorage.set") ;; throw error).

Definition delete (key : string) : M unit :=
  tryCatch
    (request ;;
     modify (set_db (base.delete key)) ;;
     tell (EvDbDelete key))
    (λ error, tell (EvError "GenericStringStorage.delete") ;; throw error).

(** value !== undefined *)
Definition exists_ (key : string) : M bool :=
  tryCatch
    (request ;;
     let* w := get_world in
     ret (bool_decide (is_Some (db w !! key))))
    (λ error, tell (EvWarn "GenericStringStorage.exists") ;; ret false).

(** The loop of [exportData]: one db.get per key; a key without a value
    is skipped. *)
Fixpoint export_loop (keys : list string) (data : gmap string Text)
  : M (gmap string Text) :=
  match keys with
  | [] => ret data
  | key :: rest =>
    request ;;
    let* w := get_world in
    export_loop rest (match db w !! key with
                      | Some value => <[key := value]> data
                      | None => data
                      end)
  end.

(** db.getAllKeys, then the loop.  The order of the keys only decides
    which request meets which fault decision. *)
Definition exportData : M (gmap string Text) :=
  tryCatch
    (request ;;
     let* w := get_world in
     export_loop (map_to_list (db w)).*1 ∅)
    (λ error, tell (EvError "GenericStringStorage.exportData") ;; ret ∅).

(** The loop of [importData]: one tx.store.put per entry. *)
Fixpoint import_loop (entries : list (string * Text)) : M unit :=
  match entries with
  | [] => ret tt
  | (key, value) :: rest =>
    request ;;
    modify (set_db (insert key value)) ;;
    tell (EvDbPut key) ;;
    import_loop rest
  end.

(** One readwrite transaction around the loop: when a request of the
    transaction rejects, IndexedDB aborts it and none of its puts stay. *)
Definition importData (data : gmap string Text) : M unit :=
  tryCatch
    (let* w0 := get_world in
     tryCatch
       (request ;; import_loop (map_to_list data) ;; request)
       (λ error, modify (set_db (λ _, db w0)) ;; throw error))
    (λ error, tell (EvError "GenericStringStorage.importData") ;; throw error).

End GenericStringStorage.

(** ** JSON, as far as the cache uses it *)

Module JSON.
Definition parse (t : Text) : M (gmap string CacheEntry) :=
  match t with
  | TJson table => ret table
  | _ => throw SyntaxError
  end.
Definition stringify (table : gmap string CacheEntry) : Text := TJson table.
End JSON.

(** ** PublicKeyStorage *)

Module PublicKeyStorage.

Definition STORAGE_KEY : string := "fhevm_public_keys".
Definition CACHE_DURATION : Z := 24 * 60 * 60 * 1000.

(** kmsAddress || 'default' *)
Definition or_default (kmsAddress : option string) : string :=
  match kmsAddress with
  | None => "default"
  | Some "" => "default"
  | Some a => a
  end.

Definition getCacheKey (chainId : Z) (kmsAddress : option string) : string :=
  pretty chainId +:+ "_" +:+ or_default kmsAddress.

(** (now - entry.timestamp) < CACHE_DURATION, with the clock reading [t] *)
Definition valid_at (t : Z) (entry : CacheEntry) : bool :=
  bool_decide (t - timestamp entry < CACHE_DURATION)%Z.

Definition isValidCacheEntry (entry : CacheEntry) : M bool :=
  let* w := get_world in
  ret (valid_at (now w) entry).

(** memoryEntry && this.isValidCacheEntry(memoryEntry) *)
Definition present_and_valid (entry : option CacheEntry) : M bool :=
  match entry with
  | None => ret false
  | Some e => isValidCacheEntry e
  end.

Definition getCachedPublicKey (chainId : Z) (kmsAddress : option string)
  : M (option string) :=
  let cacheKey := getCacheKey chainId kmsAddress in
  let* w := get_world in
  let memoryEntry := memoryCache w !! cacheKey in
  let* hit := present_and_valid memoryEntry in
  match memoryEntry, hit with
  | Some e, true => ret (Some (publicKey e))
  | _, _ =>
    tryCatch
      (let* storedData := GenericStringStorage.get STORAGE_KEY in
       match storedData with
       | Some text =>
         let* parsedData := JSON.parse text in
         let entry := parsedData !! cacheKey in
         let* ok := present_and_valid entry in
         match entry, ok with
         | Some e, true =>
           modify (set_memoryCache (insert cacheKey e)) ;;
           ret (Some (publicKey e))
         | _, _ => ret None
         end
       | None => ret None
       end)
      (λ error, tell (EvWarn "PublicKeyStorage.getCachedPublicKey") ;; ret None)
  end.

Definition setCachedPublicKey (chainId : Z) (publicKey : string)
    (kmsAddress : option string) : M unit :=
  let cacheKey := getCacheKey chainId kmsAddress in
  let* w := get_world in
  let entry := {| publicKey := publicKey; timestamp := now w |} in
  modify (set_memoryCache (insert cacheKey entry)) ;;
  tryCatch
    (let* existingData := GenericStringStorage.get STORAGE_KEY in
     let* storedData :=
       match existingData with
       | Some text => JSON.parse text
       | None => ret ∅
       end in
     GenericStringStorage.set STORAGE_KEY
       (JSON.stringify (<[cacheKey := entry]> storedData)))
    (λ error, tell (EvWarn "PublicKeyStorage.setCachedPublicKey")).

(** Some entry of the table fails the validity test. *)
Definition has_expired (t : Z) (table : gmap string CacheEntry) : bool :=
  negb (bool_decide (map_Forall (λ _ e, valid_at t e = true) table)).

Definition cleanupExpiredEntries : M unit :=
  tryCatch
    (let* storedData := GenericStringStorage.get STORAGE_KEY in
     match storedData with
     | None => ret tt
     | Some text =>
       let* parsedData := JSON.parse text in
       let* w := get_world in
       let cleanedData := filter (λ kv, valid_at (now w) kv.2 = true) parsedData in
       let expiredStored := has_expired (now w) parsedData in
       let cleanedMemory := filter (λ kv, valid_at (now w) kv.2 = true) (memoryCache w) in
       let expiredMemory := has_expired (now w) (memoryCache w) in
       modify (set_memoryCache (λ _, cleanedMemory)) ;;
       if expiredStored || expiredMemory
       then GenericStringStorage.set STORAGE_KEY (JSON.stringify cleanedData)
       else ret tt
     end)
    (λ error, tell (EvWarn "PublicKeyStorage.cleanupExpiredEntries")).

Definition clearAll : M unit :=
  modify (set_memoryCache (λ _, ∅)) ;;
  GenericStringStorage.delete STORAGE_KEY.

Record CacheStats := {
  memoryEntries : nat;
  persistentEntries : nat;
  validEntries : nat;
  expiredEntries : nat
}.

Definition getCacheStats : M CacheStats :=
  let* counts :=
    tryCatch
      (let* storedData := GenericStringStorage.get STORAGE_KEY in
       match storedData with
       | Some text =>
         let* parsedData := JSON.parse text in
         let* w := get_world in
         let valid := size (filter (λ kv, valid_at (now w) kv.2 = true) parsedData) in
         let expired := size (filter (λ kv, valid_at (now w) kv.2 = false) parsedData) in
         ret (size parsedData, valid, expired)
       | None => ret (0, 0, 0)
       end)
      (λ error, tell (EvWarn "PublicKeyStorage.getCacheStats") ;; ret (0, 0, 0)) in
  let* w := get_world in
  ret {| memoryEntries := size (memoryCache w);
         persistentEntries := counts.1.1;
         validEntries := counts.1.2;
         expiredEntries := counts.2 |}.

End PublicKeyStorage.

(** ** createFhevmInstance and the instance it returns *)

Module Fhevm.

Definition SEPOLIA_chainId : Z := 11155111.

Definition DEFAULT_MOCK_CHAINS : gmap Z string :=
  {[ 1337%Z := "http://localhost:8545"; 31337%Z := "http://localhost:8545" ]}.

(** CreateFhevmInstanceOptions.  [signal] tells whether a signal was
    passed; its flag is [aborted] in the world.  The status callback only
    logs and is left out. *)
Record Options := {
  chainId : option Z;
  provider : option Provider;
  mockChains : option (gmap Z string);
  signal : bool;
  publicKeyOrAddress : option string;
  kmsContractAddress : option string;
  aclContractAddress : option string
}.

(** The instance built by the relayer SDK. *)
Record RawInstance := {
  raw_getPublicKey : option (Result string);  (* None: no such method *)
  raw_encrypt32 : JsValue → Result Uint8Array;
  raw_encrypt64 : JsValue → Result Uint8Array;
  raw_encryptBool : JsValue → Result Uint8Array
}.

(** What the collaborators answer during one construction.  When
    createInstance resolves, it resolves to an instance object. *)
Record External := {
  sdkLoad : Result unit;                         (* sdkLoader.load() *)
  windowSDK : bool;                              (* window.relayerSDK is set *)
  getNetwork : Result Z;                         (* Number((await getNetwork()).chainId) *)
  initSDK : SdkConfig → Result unit;
  createInstance : SdkConfig → Result RawInstance
}.

(** The wrapped instance: the raw one and the variables its closures
    captured. *)
Record FhevmInstance := {
  fhevmInstance : RawInstance;
  actualChainId : option Z;
  capturedMockChains : gmap Z string;
  capturedKms : option string
}.

Definition lift {A} (r : Result A) : M A := λ w, (r, w).

(** [await p m]: run [m]; while the caller is suspended at [p] the owner
    of the signal may call abort(), which shows when the caller resumes. *)
Definition await {A} (p : Await) (m : M A) : M A :=
  λ w, let r := m w in
       (r.1, if decide (abortDuring r.2 = Some p)
             then (if aborted r.2 then r.2 else emit EvAbort (set_aborted true r.2))
             else r.2).

(** if (signal?.aborted) throw new Error("Operation was aborted") *)
Definition checkAborted (options : Options) : M unit :=
  let* w := get_world in
  if signal options && aborted w
  then throw (JsError "Operation was aborted")
  else ret tt.

(** Truthiness of a number|undefined and of a string|undefined|null. *)
Definition truthy_number (n : option Z) : bool :=
  match n with
  | Some z => negb (z =? 0)%Z
  | None => false
  end.
Definition truthy_string (s : option string) : bool :=
  match s with
  | Some "" => false
  | Some _ => true
  | None => false
  end.

(** actualChainId || 1337, for a chain id that is not undefined *)
Definition or_1337 (c : Z) : Z := if (c =? 0)%Z then 1337%Z else c.

Definition selectConfig (mockChains : gmap Z string) (actualChainId : option Z)
    (actualProvider : option Provider) (publicKey : option string)
    (kms acl : option string) : SdkConfig :=
  match actualChainId with
  | Some c =>
    if bool_decide (c = SEPOLIA_chainId) then
      SepoliaCfg actualProvider
    else
      match mockChains !! c with
      | Some url =>
        if truthy_number (Some c) && truthy_string (Some url)
        then MockCfg c url actualProvider
        else DefaultCfg (or_1337 c) actualProvider publicKey kms acl
      | None => DefaultCfg (or_1337 c) actualProvider publicKey kms acl
      end
  | None => DefaultCfg 1337 actualProvider publicKey kms acl
  end.

Definition createFhevmInstance (ext : External) (options : Options)
  : M FhevmInstance :=
  let mockChains := default DEFAULT_MOCK_CHAINS (mockChains options) in
  let kms := kmsContractAddress options in
  checkAborted options ;;
  tryCatch
    (await AwSdkLoad (lift (sdkLoad ext)))
    (λ error,
       tell (EvError "Failed to load Relayer SDK") ;;
       throw (JsError ("Failed to load FHEVM Relayer SDK: " +:+ error_message error))) ;;
  checkAborted options ;;
  (if windowSDK ext then ret tt
   else throw (JsError "Relayer SDK not available on window object")) ;;
  let actualProvider := provider options in
  let* actualChainId :=
    if negb (truthy_number (chainId options)) && bool_decide (is_Some actualProvider)
    then tryCatch
           (let* detected := await AwGetNetwork (lift (getNetwork ext)) in
            ret (Some detected))
           (λ error, tell (EvWarn "Could not detect chain ID") ;; ret (chainId options))
    else ret (chainId options) in
  checkAborted options ;;
  (* new PublicKeyStorage() *)
  modify (set_memoryCache (λ _, ∅)) ;;
  await AwCleanup PublicKeyStorage.cleanupExpiredEntries ;;
  let* publicKey :=
    match actualChainId with
    | Some c =>
      if negb (truthy_string (publicKeyOrAddress options)) && truthy_number actualChainId
      then await AwCacheGet (PublicKeyStorage.getCachedPublicKey c kms)
      else ret (publicKeyOrAddress options)
    | None => ret (publicKeyOrAddress options)
    end in
  let sdkConfig :=
    selectConfig mockChains actualChainId actualProvider publicKey kms
                 (aclContractAddress options) in
  checkAborted options ;;
  tryCatch
    (await AwInitSDK (tell (EvInitSDK sdkConfig) ;; lift (initSDK ext sdkConfig)))
    (λ error,
       tell (EvError "Failed to initialize SDK") ;;
       throw (JsError ("Failed to initialize FHEVM SDK: " +:+ error_message error))) ;;
  checkAborted options ;;
  let* fhevmInstance :=
    tryCatch
      (await AwCreateInstance
         (tell (EvCreateInstance sdkConfig) ;; lift (createInstance ext sdkConfig)))
      (λ error,
         tell (EvError "Failed to create instance") ;;
         throw (JsError ("Failed to create FHEVM instance: " +:+ error_message error))) in
  checkAborted options ;;
  match actualChainId, raw_getPublicKey fhevmInstance with
  | Some c, Some answer =>
    if truthy_number actualChainId then
      tryCatch
        (let* retrievedPublicKey :=
           await AwGetPublicKey (tell EvGetPublicKey ;; lift answer) in
         if truthy_string (Some retrievedPublicKey)
            && negb (bool_decide (Some retrievedPublicKey = publicKey))
         then await AwCacheSet
                (PublicKeyStorage.setCachedPublicKey c retrievedPublicKey kms)
         else ret tt)
        (λ error, tell (EvWarn "Could not retrieve/cache public key"))
    else ret tt
  | _, _ => ret tt
  end ;;
  ret {| fhevmInstance := fhevmInstance;
         actualChainId := actualChainId;
         capturedMockChains := mockChains;
         capturedKms := kms |}.

(** *** The wrapped instance's methods *)

Definition Number_isInteger (v : JsValue) : bool :=
  match v with
  | VNumber (Integral _) => true
  | _ => false
  end.

(** value < bound and value > bound, for a number or bigint [value]. *)
Definition js_lt (v : JsValue) (bound : Z) : bool :=
  match v with
  | VNumber (Integral z) | VBigInt z => (z <? bound)%Z
  | _ => false
  end.
Definition js_gt (v : JsValue) (bound : Z) : bool :=
  match v with
  | VNumber (Integral z) | VBigInt z => (z >? bound)%Z
  | _ => false
  end.

Definition encrypt32 (self : FhevmInstance) (value : JsValue) : M Uint8Array :=
  if negb (bool_decide (typeof value = TyNumber)) || negb (Number_isInteger value)
  then throw (JsError "encrypt32 requires an integer value")
  else if js_lt value 0 || js_gt value 0xFFFFFFFF
  then throw (JsError "encrypt32 value must be between 0 and 2^32-1")
  else tell (EvEncrypt32 value) ;; lift (raw_encrypt32 (fhevmInstance self) value).

Definition encrypt64 (self : FhevmInstance) (value : JsValue) : M Uint8Array :=
  if negb (bool_decide (typeof value = TyBigInt))
  then throw (JsError "encrypt64 requires a bigint value")
  else if js_lt value 0 || js_gt value 0xFFFFFFFFFFFFFFFF
  then throw (JsError "encrypt64 value must be between 0 and 2^64-1")
  else tell (EvEncrypt64 value) ;; lift (raw_encrypt64 (fhevmInstance self) value).

Definition encryptBool (self : FhevmInstance) (value : JsValue) : M Uint8Array :=
  if negb (bool_decide (typeof value = TyBoolean))
  then throw (JsError "encryptBool requires a boolean value")
  else tell (EvEncryptBool value) ;; lift (raw_encryptBool (fhevmInstance self) value).

Definition getChainId (self : FhevmInstance) : option Z := actualChainId self.

Definition isSepoliaNetwork (self : FhevmInstance) : bool :=
  bool_decide (actualChainId self = Some SEPOLIA_chainId).

Definition isMockNetwork (self : FhevmInstance) : bool :=
  if truthy_number (actualChainId self)
  then truthy_string (actualChainId self ≫= (λ c, capturedMockChains self !! c))
  else false.

Definition clearPublicKeyCache (self : FhevmInstance) : M unit :=
  PublicKeyStorage.clearAll.

Definition getPublicKeyStats (self : FhevmInstance) : M PublicKeyStorage.CacheStats :=
  PublicKeyStorage.getCacheStats.

End Fhevm.

(** ** The useFhevm hook *)

Module UseFhevm.

(** "idle" | "loading" | "ready" | "error" *)
Inductive FhevmGoState := st_idle | st_loading | st_ready | st_error.

Inductive LogLine :=
| Log (message : string)        (* console.log *)
| LogError (message : string).  (* console.error *)

(** The variables an attempt captures when the main effect starts it. *)
Record Attempt := {
  thisSignal : nat;
  thisProvider : option Provider;
  thisChainId : option Z;
  thisRpcUrlsByChainId : option (gmap Z string)
}.

(** How [createFhevmInstance] settles: fulfilled with an instance or
    rejected with an error. *)
Definition Settlement := Result Fhevm.FhevmInstance.

(** The hook's state and refs.  [controllers] holds the aborted flag of
    every AbortController created so far, and a ref points into it.
    [published] is a history variable: it records each time a promise
    handler stores an outcome with the three setters, and the code never
    reads it. *)
Record Hook := mkHook {
  instance : option Fhevm.FhevmInstance;
  status : FhevmGoState;
  error : option Error;
  _isRunning : bool;
  _providerChanged : nat;
  _abortControllerRef : option nat;
  _providerRef : option Provider;
  _chainIdRef : option Z;
  _mockChainsRef : option (gmap Z string);
  controllers : list bool;
  console : list LogLine;
  published : list (Attempt * Settlement)
}.

(** What an observer of the hook sees. *)
Definition observable (h : Hook) : option Fhevm.FhevmInstance * FhevmGoState * option Error :=
  (instance h, status h, error h).

Definition _setInstance (i : option Fhevm.FhevmInstance) (h : Hook) : Hook :=
  mkHook i (status h) (error h) (_isRunning h) (_providerChanged h)
         (_abortControllerRef h) (_providerRef h) (_chainIdRef h) (_mockChainsRef h)
         (controllers h) (console h) (published h).
Definition _setStatus (s : FhevmGoState) (h : Hook) : Hook :=
  mkHook (instance h) s (error h) (_isRunning h) (_providerChanged h)
         (_abortControllerRef h) (_providerRef h) (_chainIdRef h) (_mockChainsRef h)
         (controllers h) (console h) (published h).
Definition _setError (e : option Error) (h : Hook) : Hook :=
  mkHook (instance h) (status h) e (_isRunning h) (_providerChanged h)
         (_abortControllerRef h) (_providerRef h) (_chainIdRef h) (_mockChainsRef h)
         (controllers h) (console h) (published h).
Definition _setIsRunning (b : bool) (h : Hook) : Hook :=
  mkHook (instance h) (status h) (error h) b (_providerChanged h)
         (_abortControllerRef h) (_providerRef h) (_chainIdRef h) (_mockChainsRef h)
         (controllers h) (console h) (published h).
Definition _setProviderChanged (f : nat → nat) (h : Hook) : Hook :=
  mkHook (instance h) (status h) (error h) (_isRunning h) (f (_providerChanged h))
         (_abortControllerRef h) (_providerRef h) (_chainIdRef h) (_mockChainsRef h)
         (controllers h) (console h) (published h).
Definition set_abortControllerRef (r : option nat) (h : Hook) : Hook :=
  mkHook (instance h) (status h) (error h) (_isRunning h) (_providerChanged h)
         r (_providerRef h) (_chainIdRef h) (_mockChainsRef h)
         (controllers h) (console h) (published h).
Definition set_providerRef (p : option Provider) (h : Hook) : Hook :=
  mkHook (instance h) (status h) (error h) (_isRunning h) (_providerChanged h)
         (_abortControllerRef h) p (_chainIdRef h) (_mockChainsRef h)
         (controllers h) (console h) (published h).
Definition set_chainIdRef (c : option Z) (h : Hook) : Hook :=
  mkHook (instance h) (status h) (error h) (_isRunning h) (_providerChanged h)
         (_abortControllerRef h) (_providerRef h) c (_mockChainsRef h)
         (controllers h) (console h) (published h).
Definition set_controllers (f : list bool → list bool) (h : Hook) : Hook :=
  mkHook (instance h) (status h) (error h) (_isRunning h) (_providerChanged h)
         (_abortControllerRef h) (_providerRef h) (_chainIdRef h) (_mockChainsRef h)
         (f (controllers h)) (console h) (published h).
Definition say (l : LogLine) (h : Hook) : Hook :=
  mkHook (instance h) (status h) (error h) (_isRunning h) (_providerChanged h)
         (_abortControllerRef h) (_providerRef h) (_chainIdRef h) (_mockChainsRef h)
         (controllers h) (console h ++ [l]) (published h).
Definition record_publication (a : Attempt) (r : Settlement) (h : Hook) : Hook :=
  mkHook (instance h) (status h) (error h) (_isRunning h) (_providerChanged h)
         (_abortControllerRef h) (_providerRef h) (_chainIdRef h) (_mockChainsRef h)
         (controllers h) (console h) (published h ++ [(a, r)]).

(** controller.abort() and controller.signal.aborted *)
Definition abort (k : nat) (h : Hook) : Hook := set_controllers (<[k := true]>) h.
Definition signal_aborted (k : nat) (h : Hook) : bool := default false (controllers h !! k).

(** The three resets that [refresh] and the main effect share. *)
Definition reset_state (h : Hook) : Hook :=
  _setStatus st_idle (_setError None (_setInstance None h)).

Definition _assert (condition : bool) (message : string) (h : Hook) : Result unit * Hook :=
  if condition then (Ok tt, h)
  else let m := "Assertion failed: " +:+ message in
       (Throw (JsError m), say (LogError m) h).

(** [refresh], a closure over the props [provider] and [chainId] of the
    render that made it. *)
Definition refresh (provider : option Provider) (chainId : option Z) (h : Hook) : Hook :=
  let h := say (Log "Refresh called") h in
  let h :=
    match _abortControllerRef h with
    | Some k =>
      let h := say (Log "Aborting previous operation") h in
      let h := set_providerRef None h in
      let h := set_chainIdRef None h in
      let h := abort k h in
      set_abortControllerRef None h
    | None => h
    end in
  let h := set_providerRef provider h in
  let h := set_chainIdRef chainId h in
  let h := reset_state h in
  match provider with
  | Some _ => _setProviderChanged S (say (Log "Triggering provider change") h)
  | None => h
  end.

(** The body of the main effect.  It returns the attempt it started, if
    any; a failed assertion escapes as an exception. *)
Definition mainEffect (h : Hook) : Result (option Attempt) * Hook :=
  let h := say (Log "Main effect triggered") h in
  if negb (_isRunning h) then
    let h := say (Log "Instance creation cancelled - not running") h in
    let h :=
      match _abortControllerRef h with
      | Some k => set_abortControllerRef None (abort k h)
      | None => h
      end in
    (Ok None, reset_state h)
  else
    match _providerRef h with
    | None =>
      (Ok None, reset_state (say (Log "Provider is undefined, resetting state") h))
    | Some _ =>
      let h :=
        match _abortControllerRef h with
        | Some _ => h
        | None =>
          set_abortControllerRef (Some (length (controllers h)))
                                 (set_controllers (λ cs, cs ++ [false]) h)
        end in
      let k := default 0 (_abortControllerRef h) in
      match _assert (negb (signal_aborted k h))
                    "Abort controller should not be aborted at this point" h with
      | (Throw e, h) => (Throw e, h)
      | (Ok _, h) =>
        let h := say (Log "Starting instance creation") h in
        let h := _setError None (_setStatus st_loading h) in
        (Ok (Some {| thisSignal := k;
                     thisProvider := _providerRef h;
                     thisChainId := _chainIdRef h;
                     thisRpcUrlsByChainId := _mockChainsRef h |}), h)
      end
    end.

(** .then((instance) => ...) *)
Definition onFulfilled (a : Attempt) (i : Fhevm.FhevmInstance) (h : Hook)
  : Result unit * Hook :=
  let h := say (Log "Instance created successfully!") h in
  if signal_aborted (thisSignal a) h then
    (Ok tt, say (Log "Operation was aborted, ignoring result") h)
  else
    match _assert (bool_decide (thisProvider a = _providerRef h))
                  "Provider should not have changed during creation" h with
    | (Throw e, h) => (Throw e, h)
    | (Ok _, h) =>
      (Ok tt, record_publication a (Ok i)
                (_setStatus st_ready (_setError None (_setInstance (Some i) h))))
    end.

(** .catch((error) => ...) *)
Definition onRejected (a : Attempt) (e : Error) (h : Hook) : Result unit * Hook :=
  let h := say (LogError "Instance creation failed") h in
  if signal_aborted (thisSignal a) h then
    (Ok tt, say (Log "Operation was aborted, ignoring error") h)
  else
    match _assert (bool_decide (thisProvider a = _providerRef h))
                  "Provider should not have changed during creation" h with
    | (Throw e', h) => (Throw e', h)
    | (Ok _, h) =>
      (Ok tt, record_publication a (Throw e)
                (_setStatus st_error (_setError (Some e) (_setInstance None h))))
    end.

(** The effect on [enabled], and the cleanup that runs on unmount. *)
Definition enableEffect (enabled : bool) (h : Hook) : Hook := _setIsRunning enabled h.

Definition unmount (h : Hook) : Hook :=
  match _abortControllerRef h with
  | Some k => abort k (say (Log "Cleaning up - aborting operation") h)
  | None => h
  end.

(** createFhevmInstance(...).then(onFulfilled).catch(onRejected): the
    rejection handler also receives what the fulfilment handler throws.
    A [Throw] in the result is an unhandled rejection. *)
Definition settle (a : Attempt) (r : Settlement) (h : Hook) : Result unit * Hook :=
  match r with
  | Ok i =>
    match onFulfilled a i h with
    | (Ok _, h') => (Ok tt, h')
    | (Throw e, h') => onRejected a e h'
    end
  | Throw e => onRejected a e h
  end.

(** A change of the props [provider] or [chainId]: React re-creates
    [refresh], the effect that depends on it calls it, and the main effect
    runs again when its dependency [_providerChanged] has changed.  (On
    mount the main effect also runs once on its own; that run is
    [mainEffect].) *)
Definition start (provider : option Provider) (chainId : option Z) (h : Hook)
  : Result (option Attempt) * Hook :=
  let h' := refresh provider chainId h in
  if bool_decide (_providerChanged h' = _providerChanged h)
  then (Ok None, h')
  else mainEffect h'.

End UseFhevm.

(** ** The FHECounter contract (src/FHECounter.sol) *)

Module FHECounter.

Definition MAX_UINT32 : Z := 2 ^ 32 - 1.
Definition MAX_UINT256 : Z := 2 ^ 256 - 1.

(** Solidity 0.8 arithmetic: an addition that leaves the type reverts. *)
Definition checked_add (max a b : Z) : option Z :=
  if (a + b <=? max)%Z then Some (a + b)%Z else None.

(** uint32(uint256(x)) for a bytes32 [x] *)
Definition to_uint32 (x : Z) : Z := (x `mod` 2 ^ 32)%Z.

Inductive Log :=
| CounterIncremented (user handle : Z)
| CounterDecremented (user handle : Z)
| CounterInitialized (handle : Z).

(** The contract's storage, with bytes32 handles read as numbers, and the
    events emitted so far. *)
Record Storage := mkStorage {
  _counter : Z;
  operationCount : Z;
  _handles : gmap Z Z;
  _nextHandleId : Z;
  _currentHandle : Z;
  logs : list Log
}.

Definition set_counter (c : Z) (s : Storage) : Storage :=
  mkStorage c (operationCount s) (_handles s) (_nextHandleId s) (_currentHandle s) (logs s).
Definition emit_log (l : Log) (s : Storage) : Storage :=
  mkStorage (_counter s) (operationCount s) (_handles s) (_nextHandleId s)
            (_currentHandle s) (logs s ++ [l]).

(** bytes32 newHandle = bytes32(_nextHandleId++);
    _handles[newHandle] = _counter; _currentHandle = newHandle; *)
Definition new_handle (s : Storage) : option Storage :=
  next ← checked_add MAX_UINT256 (_nextHandleId s) 1;
  Some (mkStorage (_counter s) (operationCount s)
                  (<[_nextHandleId s := _counter s]> (_handles s))
                  next (_nextHandleId s) (logs s)).

(** operationCount++ *)
Definition count_operation (s : Storage) : option Storage :=
  n ← checked_add MAX_UINT256 (operationCount s) 1;
  Some (mkStorage (_counter s) n (_handles s) (_nextHandleId s)
                  (_currentHandle s) (logs s)).

(** The storage before the constructor body: [_nextHandleId = 1]. *)
Definition blank : Storage := mkStorage 0 0 ∅ 1 0 [].

Definition constructor : option Storage :=
  s ← new_handle (set_counter 0 blank);
  let s := mkStorage (_counter s) 0 (_handles s) (_nextHandleId s)
                     (_currentHandle s) (logs s) in
  Some (emit_log (CounterInitialized (_currentHandle s)) s).

(** if (amount == 0) amount = 1; *)
Definition amount_of (inputEuint32 : Z) : Z :=
  if (to_uint32 inputEuint32 =? 0)%Z then 1%Z else to_uint32 inputEuint32.

Definition increment (sender inputEuint32 : Z) (s : Storage) : option Storage :=
  let amount := amount_of inputEuint32 in
  c ← checked_add MAX_UINT32 (_counter s) amount;
  s ← new_handle (set_counter c s);
  s ← count_operation s;
  Some (emit_log (CounterIncremented sender (_currentHandle s)) s).

Definition decrement (sender inputEuint32 : Z) (s : Storage) : option Storage :=
  let amount := amount_of inputEuint32 in
  let c := if (_counter s >=? amount)%Z then (_counter s - amount)%Z else 0%Z in
  s ← new_handle (set_counter c s);
  s ← count_operation s;
  Some (emit_log (CounterDecremented sender (_currentHandle s)) s).

Definition reset (s : Storage) : option Storage :=
  s ← new_handle (set_counter 0 s);
  s ← count_operation s;
  Some (emit_log (CounterInitialized (_currentHandle s)) s).

Definition getCount (s : Storage) : Z := _currentHandle s.
Definition getDecryptedCount (s : Storage) : Z := _counter s.
Definition mockDecrypt (handle : Z) (s : Storage) : Z := default 0%Z (_handles s !! handle).
Definition getOperationCount (s : Storage) : Z := operationCount s.
Definition getCurrentValue (s : Storage) : Z := _counter s.

Definition addTwoEncryptedNumbers (a b : Z) : option Z :=
  checked_add MAX_UINT32 (to_uint32 a) (to_uint32 b).

Definition compareEncryptedNumbers (a b : Z) : Z :=
  if (to_uint32 a >=? to_uint32 b)%Z then 1%Z else 0%Z.

(** The transactions that change the storage, and a sequence of them; a
    transaction that reverts ends the sequence with no result. *)
Inductive Call :=
| Increment (sender inputEuint32 : Z)
| Decrement (sender inputEuint32 : Z)
| Reset.

Definition call (c : Call) (s : Storage) : option Storage :=
  match c with
  | Increment sender input => increment sender input s
  | Decrement sender input => decrement sender input s
  | Reset => reset s
  end.

Fixpoint run (calls : list Call) (s : Storage) : option Storage :=
  match calls with
  | [] => Some s
  | c :: rest => s' ← call c s; run rest s'
  end.

(** What holds of the storage after deployment and any transactions. *)
Definition consistent (s : Storage) : Prop :=
  (0 ≤ _counter s ≤ MAX_UINT32)%Z
  ∧ _handles s !! _currentHandle s = Some (_counter s)
  ∧ (∀ h, is_Some (_handles s !! h) → (h < _nextHandleId s)%Z).

End FHECounter.

(** ** Vocabulary of the specification *)

(** The entry the persistent table holds for a cache key: the table is the
    text stored under [STORAGE_KEY], read as JSON. *)
Definition stored_entry (w : World) (cacheKey : string) : option CacheEntry :=
  match db w !! PublicKeyStorage.STORAGE_KEY with
  | Some (TJson table) => table !! cacheKey
  | _ => None
  end.

(** The next storage request does not reject. *)
Definition next_request_succeeds (w : World) : Prop := head (faults w) ≠ Some true.

(** The volatile tier has no unexpired entry for the key. *)
Definition no_valid_memory_entry (w : World) (cacheKey : string) : Prop :=
  ∀ e, memoryCache w !! cacheKey = Some e →
       PublicKeyStorage.valid_at (now w) e = false.

(** [e] is the cache's entry for the key: either the volatile tier holds
    it (and the persistent tier holds the same entry or none), or the
    volatile tier holds nothing and the persistent tier, which can be
    read, holds it. *)
Definition entry_in_tiers (w : World) (cacheKey : string) (e : CacheEntry) : Prop :=
  (memoryCache w !! cacheKey = Some e
   ∧ (stored_entry w cacheKey = None ∨ stored_entry w cacheKey = Some e))
  ∨ (memoryCache w !! cacheKey = None
     ∧ stored_entry w cacheKey = Some e
     ∧ next_request_succeeds w).

(** The world once the next storage request has been served. *)
Definition after_request (w : World) : World :=
  match faults w with
  | _ :: fs => set_faults fs w
  | [] => w
  end.

(** What is out of reach for the storage adapter: the volatile tier, the
    clock and the signal. *)
Definition storage_frame (w w' : World) : Prop :=
  memoryCache w' = memoryCache w ∧ now w' = now w
  ∧ aborted w' = aborted w ∧ abortDuring w' = abortDuring w.

(** The ranges the specification gives for the encryption entry points. *)
Definition in_uint32 (v : JsValue) : Prop :=
  ∃ z, v = VNumber (Integral z) ∧ (0 ≤ z ≤ 2 ^ 32 - 1)%Z.
Definition in_uint64 (v : JsValue) : Prop :=
  ∃ z, v = VBigInt z ∧ (0 ≤ z ≤ 2 ^ 64 - 1)%Z.
Definition is_boolean (v : JsValue) : Prop :=
  ∃ b, v = VBoolean b.

(** ** Sample worlds *)

Definition hour : Z := 3600 * 1000.

(** A world with no signal activity and an empty trace. *)
Definition quiet_world (t : Z) (store : gmap string Text) (fs : list bool)
    (mem : gmap string CacheEntry) : World :=
  mkWorld t store fs mem false None [].

Definition persisted (table : gmap string CacheEntry) : gmap string Text :=
  {[ PublicKeyStorage.STORAGE_KEY := TJson table ]}.

(** An entry written 23 hours ago, and one written 25 hours ago, each in
    the persistent tier only; the clock reads 100 hours. *)
Definition entry_23h : CacheEntry := {| publicKey := "K1"; timestamp := 77 * hour |}.
Definition entry_25h : CacheEntry := {| publicKey := "K1"; timestamp := 75 * hour |}.
Definition world_23h : World :=
  quiet_world (100 * hour) (persisted {[ "1337_default" := entry_23h ]}) [] ∅.
Definition world_25h : World :=
  quiet_world (100 * hour) (persisted {[ "1337_default" := entry_25h ]}) [] ∅.
(** The entry written 23 hours ago, in the persistent tier only, behind a
    store whose next read rejects. *)
Definition world_23h_failed_read : World :=
  quiet_world (100 * hour) (persisted {[ "1337_default" := entry_23h ]}) [true] ∅.
(** The entry written 25 hours ago in the volatile tier, and a newer entry
    with another key in the persistent tier of a healthy store. *)
Definition entry_newer : CacheEntry := {| publicKey := "K2"; timestamp := 99 * hour |}.
Definition world_stale_memory : World :=
  quiet_world (100 * hour) (persisted {[ "1337_default" := entry_newer ]}) []
              {[ "1337_default" := entry_25h ]}.

(** A persistent table with entries for chains 1 and 2. *)
Definition entry_B : CacheEntry := {| publicKey := "KB"; timestamp := 99 * hour |}.
Definition entry_C : CacheEntry := {| publicKey := "KC"; timestamp := 98 * hour |}.
Definition table_BC : gmap string CacheEntry :=
  {[ "1_default" := entry_B; "2_default" := entry_C ]}.
(** ... with a healthy store, *)
Definition world_BC : World := quiet_world (100 * hour) (persisted table_BC) [] ∅.
(** ... and with a store whose next read rejects while the write after it
    goes through. *)
Definition world_BC_failed_load : World :=
  quiet_world (100 * hour) (persisted table_BC) [true; false] ∅.

(** ** Sample collaborators and hook states *)

Definition sample_raw : Fhevm.RawInstance :=
  {| Fhevm.raw_getPublicKey := Some (Ok "PK-authority");
     Fhevm.raw_encrypt32 := λ _, Ok [32%Z];
     Fhevm.raw_encrypt64 := λ _, Ok [64%Z];
     Fhevm.raw_encryptBool := λ _, Ok [1%Z] |}.

(** Collaborators that all succeed, except for what the network query
    answers. *)
Definition sample_external (network : Result Z) : Fhevm.External :=
  {| Fhevm.sdkLoad := Ok tt;
     Fhevm.windowSDK := true;
     Fhevm.getNetwork := network;
     Fhevm.initSDK := λ _, Ok tt;
     Fhevm.createInstance := λ _, Ok sample_raw |}.

Definition sample_options (chain : option Z) : Fhevm.Options :=
  {| Fhevm.chainId := chain;
     Fhevm.provider := Some (PObj 0);
     Fhevm.mockChains := None;
     Fhevm.signal := true;
     Fhevm.publicKeyOrAddress := None;
     Fhevm.kmsContractAddress := None;
     Fhevm.aclContractAddress := None |}.

Definition sample_instance : Fhevm.FhevmInstance :=
  {| Fhevm.fhevmInstance := sample_raw;
     Fhevm.actualChainId := Some 5%Z;
     Fhevm.capturedMockChains := Fhevm.DEFAULT_MOCK_CHAINS;
     Fhevm.capturedKms := None |}.

(** An empty store, and an owner of the signal who calls abort() while the
    construction waits for the instance's public key. *)
Definition world_abort_during_getPublicKey : World :=
  mkWorld (100 * hour) ∅ [] ∅ false (Some AwGetPublicKey) [].

Definition world_empty : World := quiet_world (100 * hour) ∅ [] ∅.

(** The hook right after mounting with no provider, enabled. *)
Definition hook_mounted : UseFhevm.Hook :=
  UseFhevm.mkHook None UseFhevm.st_idle None true 0 None None None None [] [] [].

(** An attempt started for provider 1 on the first controller, and the
    hook while it waits for that attempt. *)
Definition attempt_for_provider_1 : UseFhevm.Attempt :=
  {| UseFhevm.thisSignal := 0;
     UseFhevm.thisProvider := Some (PObj 1);
     UseFhevm.thisChainId := Some 5%Z;
     UseFhevm.thisRpcUrlsByChainId := None |}.
Definition hook_with_provider_1 : UseFhevm.Hook :=
  UseFhevm.mkHook None UseFhevm.st_loading None true 1 (Some 0)
                  (Some (PObj 1)) (Some 5%Z) None [false] [] [].

(** What the hook shows once a settlement has been stored. *)
Definition outcome (r : UseFhevm.Settlement)
  : option Fhevm.FhevmInstance * UseFhevm.FhevmGoState * option Error :=
  match r with
  | Ok i => (Some i, UseFhevm.st_ready, None)
  | Throw e => (None, UseFhevm.st_error, Some e)
  end.


(** The AbortControllers after [refresh] has aborted the current one. *)
Definition controllers_after_abort (h : UseFhevm.Hook) : list bool :=
  match UseFhevm._abortControllerRef h with
  | Some k => <[k := true]> (UseFhevm.controllers h)
  | None => UseFhevm.controllers h
  end.

(** ** Runs of the hook *)












(** An entry, if there is one and it is unexpired at time [t]. *)
Definition unexpired (t : Z) (entry : option CacheEntry) : option CacheEntry :=
  match entry with
  | Some e => if PublicKeyStorage.valid_at t e then Some e else None
  | None => None
  end.

(** The string contains the separator of cache keys. *)
Fixpoint has_underscore (s : string) : bool :=
  match s with
  | EmptyString => false
  | String c rest => bool_decide (c = "_"%char) || has_underscore rest
  end.

(** ** Vocabulary for the construction sequence *)

(** The computation leaves the abort schedule alone, and it leaves the
    signal's flag alone unless an abort is scheduled at one of the
    suspension points [ps]. *)
Definition keeps_signal_unless (ps : list Await) {A} (m : M A) : Prop :=
  ∀ w, abortDuring (m w).2 = abortDuring w
       ∧ ((∀ p, p ∈ ps → abortDuring w ≠ Some p) → aborted (m w).2 = aborted w).

(** The signal is not aborted and no abort is scheduled. *)
Definition calm (w : World) : Prop := aborted w = false ∧ abortDuring w = None.

(** Started in a calm world, the computation leaves a calm world, whether
    it returns or throws; and it returns a value and leaves a calm
    world. *)
Definition stays_calm {A} (m : M A) : Prop := ∀ w, calm w → calm (m w).2.
Definition returns_calmly {A} (m : M A) : Prop :=
  ∀ w, calm w → calm (m w).2 ∧ ∃ a, (m w).1 = Ok a.

(** The last step of [createFhevmInstance], by name: fetch the instance's
    own key and write it through the cache when it differs from the one
    in hand. *)
Definition key_write_through (options : Fhevm.Options) (actualChainId : option Z)
    (fhevmInstance : Fhevm.RawInstance) (publicKey : option string) : M unit :=
  match actualChainId, Fhevm.raw_getPublicKey fhevmInstance with
  | Some c, Some answer =>
    if Fhevm.truthy_number actualChainId then
      tryCatch
        (let* retrievedPublicKey :=
           Fhevm.await AwGetPublicKey (tell EvGetPublicKey ;; Fhevm.lift answer) in
         if Fhevm.truthy_string (Some retrievedPublicKey)
            && negb (bool_decide (Some retrievedPublicKey = publicKey))
         then Fhevm.await AwCacheSet
                (PublicKeyStorage.setCachedPublicKey c retrievedPublicKey
                   (Fhevm.kmsContractAddress options))
         else ret tt)
        (λ error, tell (EvWarn "Could not retrieve/cache public key"))
    else ret tt
  | _, _ => ret tt
  end.

(** The configuration a construction uses, given the chain id it ends up
    with and the key it has in hand. *)
Definition config_of (options : Fhevm.Options) (actualChainId : option Z)
    (publicKey : option string) : SdkConfig :=
  Fhevm.selectConfig (default Fhevm.DEFAULT_MOCK_CHAINS (Fhevm.mockChains options))
    actualChainId (Fhevm.provider options) publicKey
    (Fhevm.kmsContractAddress options) (Fhevm.aclContractAddress options).

(** An SDK that works on a network where every lookup fails: the network
    query rejects, the instance's getPublicKey rejects, and (in the world)
    so does every request to IndexedDB. *)
Definition raw_without_key : Fhevm.RawInstance :=
  {| Fhevm.raw_getPublicKey := Some (Throw (ExternalError "key unavailable"));
     Fhevm.raw_encrypt32 := λ _, Ok [32%Z];
     Fhevm.raw_encrypt64 := λ _, Ok [64%Z];
     Fhevm.raw_encryptBool := λ _, Ok [1%Z] |}.
Definition external_failing_lookups : Fhevm.External :=
  {| Fhevm.sdkLoad := Ok tt;
     Fhevm.windowSDK := true;
     Fhevm.getNetwork := Throw (ExternalError "network down");
     Fhevm.initSDK := λ _, Ok tt;
     Fhevm.createInstance := λ _, Ok raw_without_key |}.
Definition world_failing_store : World :=
  quiet_world (100 * hour) (persisted table_BC) [true; true; true; true] ∅.

(** ** Sample contract states *)

(** The storage right after deployment. *)
Definition deployed : FHECounter.Storage :=
  FHECounter.mkStorage 0 0 {[ 1%Z := 0%Z ]} 2 1 [FHECounter.CounterInitialized 1].

Definition sample_calls : list FHECounter.Call :=
  [ FHECounter.Increment 7 5; FHECounter.Decrement 7 0; FHECounter.Reset ].

(** The storage after [sample_calls] and the one after two more
    increments. *)
Definition after_sample_calls : FHECounter.Storage :=
  default deployed (FHECounter.run sample_calls deployed).
Definition after_more_calls : FHECounter.Storage :=
  default deployed
    (FHECounter.run [FHECounter.Increment 7 9; FHECounter.Increment 8 0] after_sample_calls).

(** * Properties *)

(** ** Equations of the storage operations *)

Section StorageEquations.
Import GenericStringStorage.

Lemma request_eq w :
  request w =
  match faults w with
  | true :: fs => (Throw IoError, set_faults fs w)
  | false :: fs => (Ok tt, set_faults fs w)
  | [] => (Ok tt, w)
  end.
Proof.
  unfold request, bind, get_world, modify, throw, ret.
  destruct (faults w) as [|[] fs]; reflexivity.
Qed.

Lemma get_eq key w :
  get key w =
  match faults w with
  | true :: fs => (Ok None, emit (EvWarn "GenericStringStorage.get") (set_faults fs w))
  | false :: fs => (Ok (or_null (db w !! key)), set_faults fs w)
  | [] => (Ok (or_null (db w !! key)), w)
  end.
Proof.
  unfold get, tryCatch, bind. rewrite request_eq.
  destruct (faults w) as [|[] fs]; reflexivity.
Qed.

Lemma set_eq key value w :
  set key value w =
  match faults w with
  | true :: fs =>
    (Throw IoError, emit (EvError "GenericStringStorage.set") (set_faults fs w))
  | false :: fs => (Ok tt, emit (EvDbPut key) (set_db (insert key value) (set_faults fs w)))
  | [] => (Ok tt, emit (EvDbPut key) (set_db (insert key value) w))
  end.
Proof.
  unfold set, tryCatch, bind. rewrite request_eq.
  destruct (faults w) as [|[] fs]; reflexivity.
Qed.

Lemma delete_eq key w :
  delete key w =
  match faults w with
  | true :: fs =>
    (Throw IoError, emit (EvError "GenericStringStorage.delete") (set_faults fs w))
  | false :: fs => (Ok tt, emit (EvDbDelete key) (set_db (base.delete key) (set_faults fs w)))
  | [] => (Ok tt, emit (EvDbDelete key) (set_db (base.delete key) w))
  end.
Proof.
  unfold delete, tryCatch, bind. rewrite request_eq.
  destruct (faults w) as [|[] fs]; reflexivity.
Qed.

Lemma get_frame key w : storage_frame w (get key w).2.
Proof. rewrite get_eq. by destruct (faults w) as [|[] fs]. Qed.

Lemma set_frame key value w : storage_frame w (set key value w).2.
Proof. rewrite set_eq. by destruct (faults w) as [|[] fs]. Qed.

Lemma delete_frame key w : storage_frame w (delete key w).2.
Proof. rewrite delete_eq. by destruct (faults w) as [|[] fs]. Qed.

End StorageEquations.

(** ** The key cache *)

Section KeyCache.
Import PublicKeyStorage.

Lemma present_and_valid_eq entry w :
  present_and_valid entry w =
  (Ok (match entry with Some e => valid_at (now w) e | None => false end), w).
Proof. destruct entry; reflexivity. Qed.

(** A valid entry of the volatile tier answers the call at once: nothing
    is read and the world stays as it is. *)
Lemma getCachedPublicKey_memory_hit chainId kms w e :
  memoryCache w !! getCacheKey chainId kms = Some e →
  valid_at (now w) e = true →
  getCachedPublicKey chainId kms w = (Ok (Some (publicKey e)), w).
Proof.
  intros Hm Hv. unfold getCachedPublicKey, bind, get_world.
  rewrite Hm, present_and_valid_eq, Hv. reflexivity.
Qed.

(** Without one, the answer comes from the persistent tier. *)
Lemma getCachedPublicKey_memory_miss chainId kms w :
  no_valid_memory_entry w (getCacheKey chainId kms) →
  getCachedPublicKey chainId kms w =
  tryCatch
    (let* storedData := GenericStringStorage.get STORAGE_KEY in
     match storedData with
     | Some text =>
       let* parsedData := JSON.parse text in
       let entry := parsedData !! getCacheKey chainId kms in
       let* ok := present_and_valid entry in
       match entry, ok with
       | Some e, true =>
         modify (set_memoryCache (insert (getCacheKey chainId kms) e)) ;;
         ret (Some (publicKey e))
       | _, _ => ret None
       end
     | None => ret None
     end)
    (λ error, tell (EvWarn "PublicKeyStorage.getCachedPublicKey") ;; ret None) w.
Proof.
  intros Hn. unfold getCachedPublicKey.
  generalize (getCacheKey chainId kms) Hn. clear Hn. intros k Hn.
  unfold bind at 1. unfold get_world at 1. cbv beta iota.
  unfold bind at 1. rewrite present_and_valid_eq. cbv beta iota.
  destruct (memoryCache w !! k) as [e|] eqn:Hm.
  - rewrite (Hn e Hm). reflexivity.
  - reflexivity.
Qed.

Lemma valid_at_true t e :
  valid_at t e = true ↔ (t < timestamp e + CACHE_DURATION)%Z.
Proof. unfold valid_at. rewrite bool_decide_eq_true. lia. Qed.

Lemma valid_at_false t e :
  valid_at t e = false ↔ (timestamp e + CACHE_DURATION ≤ t)%Z.
Proof. unfold valid_at. rewrite bool_decide_eq_false. lia. Qed.

(** A readable persistent table that holds [e] for the key decides the
    call by [e]'s age, and a valid [e] is copied into the volatile tier. *)
Lemma getCachedPublicKey_read_through chainId kms w e :
  no_valid_memory_entry w (getCacheKey chainId kms) →
  stored_entry w (getCacheKey chainId kms) = Some e →
  next_request_succeeds w →
  getCachedPublicKey chainId kms w =
  if valid_at (now w) e
  then (Ok (Some (publicKey e)),
        set_memoryCache (insert (getCacheKey chainId kms) e) (after_request w))
  else (Ok None, after_request w).
Proof.
  intros Hn Hs Hr. rewrite getCachedPublicKey_memory_miss by done.
  generalize (getCacheKey chainId kms) Hs. clear Hn Hs. intros k Hs.
  unfold stored_entry in Hs. unfold next_request_succeeds in Hr.
  unfold tryCatch, bind. rewrite get_eq. unfold after_request.
  destruct (db w !! STORAGE_KEY) as [[table| |]|] eqn:Hdb; try discriminate.
  destruct (faults w) as [|[] fs] eqn:Hf; [|by destruct Hr|]; simpl;
    rewrite ?Hdb; simpl; rewrite present_and_valid_eq, Hs; simpl;
    destruct (valid_at _ e) eqn:Hv; rewrite ?Hv; reflexivity.
Qed.

(** When neither tier has an unexpired entry for the key the call answers
    null, whatever the store does. *)
Lemma getCachedPublicKey_absent chainId kms w :
  no_valid_memory_entry w (getCacheKey chainId kms) →
  (∀ e, stored_entry w (getCacheKey chainId kms) = Some e →
        valid_at (now w) e = false) →
  (getCachedPublicKey chainId kms w).1 = Ok None.
Proof.
  intros Hn Hs. rewrite getCachedPublicKey_memory_miss by done.
  generalize (getCacheKey chainId kms) Hs. clear Hn Hs. intros k Hs.
  unfold stored_entry in Hs.
  unfold tryCatch, bind. rewrite get_eq.
  destruct (faults w) as [|[] fs] eqn:Hf; simpl; try reflexivity;
    (destruct (db w !! STORAGE_KEY) as [[table| |]|] eqn:Hdb; simpl; try reflexivity;
     rewrite present_and_valid_eq; simpl;
     destruct (table !! k) as [e|] eqn:He; simpl; try reflexivity;
     rewrite (Hs e eq_refl); reflexivity).
Qed.

(** C4, as the code has it.  TTL correctness needs the tiers to agree and
    the store to answer: when [e], stored at [timestamp e], is held by the
    volatile tier while the persistent tier holds the same entry or none,
    or is held by the persistent tier alone while the volatile tier holds
    nothing and the store's read succeeds, [getCachedPublicKey] returns
    its value while [now < timestamp e + CACHE_DURATION] and null once
    [now >= timestamp e + CACHE_DURATION], with [CACHE_DURATION] equal to
    24 hours in milliseconds. *)
Theorem ttl_correct_in_both_tiers chainId kms w e :
  entry_in_tiers w (getCacheKey chainId kms) e →
  CACHE_DURATION = (24 * 3600 * 1000)%Z
  ∧ ((now w < timestamp e + CACHE_DURATION)%Z →
     (getCachedPublicKey chainId kms w).1 = Ok (Some (publicKey e)))
  ∧ ((timestamp e + CACHE_DURATION ≤ now w)%Z →
     (getCachedPublicKey chainId kms w).1 = Ok None).
Proof.
  intros Hin. split; [reflexivity|]. split.
  - intros Hfresh. apply valid_at_true in Hfresh.
    destruct Hin as [[Hm _]|(Hm & Hs & Hr)].
    + by rewrite (getCachedPublicKey_memory_hit _ _ _ e).
    + rewrite (getCachedPublicKey_read_through _ _ _ e); try done.
      * by rewrite Hfresh.
      * intros e'. by rewrite Hm.
  - intros Hold. apply valid_at_false in Hold.
    apply getCachedPublicKey_absent.
    + intros e' He'. destruct Hin as [[Hm _]|(Hm & _)]; congruence.
    + intros e' He'. destruct Hin as [[_ [Hs|Hs]]|(_ & Hs & _)]; congruence.
Qed.

(** When the read of the persistent table rejects and the volatile tier
    has no unexpired entry, the call answers null and the volatile tier
    stays as it is. *)
Lemma getCachedPublicKey_failed_read chainId kms w :
  no_valid_memory_entry w (getCacheKey chainId kms) →
  ¬ next_request_succeeds w →
  (getCachedPublicKey chainId kms w).1 = Ok None
  ∧ memoryCache (getCachedPublicKey chainId kms w).2 = memoryCache w.
Proof.
  intros Hn Hr. rewrite getCachedPublicKey_memory_miss by done.
  unfold next_request_succeeds in Hr.
  unfold tryCatch, bind. rewrite get_eq.
  destruct (faults w) as [|[] fs] eqn:Hf; simpl; try done; by destruct Hr.
Qed.

(** C9, as the code has it.  Promotion depends on the store's read.  For
    a key with no unexpired entry in the volatile tier and an unexpired
    entry [e] in the persistent table: when the read succeeds, the call
    returns [e]'s value and afterwards the volatile tier holds [e] for the
    key; when the read rejects, the call returns null and the volatile
    tier is unchanged. *)
Theorem readable_persistent_hit_is_promoted chainId kms w e :
  no_valid_memory_entry w (getCacheKey chainId kms) →
  stored_entry w (getCacheKey chainId kms) = Some e →
  valid_at (now w) e = true →
  (next_request_succeeds w →
   (getCachedPublicKey chainId kms w).1 = Ok (Some (publicKey e))
   ∧ memoryCache (getCachedPublicKey chainId kms w).2 !! getCacheKey chainId kms
     = Some e)
  ∧ (¬ next_request_succeeds w →
     (getCachedPublicKey chainId kms w).1 = Ok None
     ∧ memoryCache (getCachedPublicKey chainId kms w).2 = memoryCache w).
Proof.
  intros Hn Hs Hv. split; intros Hr.
  - rewrite (getCachedPublicKey_read_through _ _ _ e) by done.
    rewrite Hv. split; [reflexivity|].
    simpl. apply lookup_insert_eq.
  - by apply getCachedPublicKey_failed_read.
Qed.

(** What [setCachedPublicKey] leaves behind, by the fate of its two
    storage requests. *)
Lemma setCachedPublicKey_eq chainId pk kms w :
  let cacheKey := getCacheKey chainId kms in
  let entry := {| publicKey := pk; timestamp := now w |} in
  let w1 := set_memoryCache (insert cacheKey entry) w in
  setCachedPublicKey chainId pk kms w =
  match GenericStringStorage.get STORAGE_KEY w1 with
  | (Ok (Some (TJson table)), w2) =>
    match GenericStringStorage.set STORAGE_KEY (TJson (<[cacheKey := entry]> table)) w2 with
    | (Ok _, w3) => (Ok tt, w3)
    | (Throw _, w3) => (Ok tt, emit (EvWarn "PublicKeyStorage.setCachedPublicKey") w3)
    end
  | (Ok (Some _), w2) => (Ok tt, emit (EvWarn "PublicKeyStorage.setCachedPublicKey") w2)
  | (Ok None, w2) =>
    match GenericStringStorage.set STORAGE_KEY (TJson {[cacheKey := entry]}) w2 with
    | (Ok _, w3) => (Ok tt, w3)
    | (Throw _, w3) => (Ok tt, emit (EvWarn "PublicKeyStorage.setCachedPublicKey") w3)
    end
  | (Throw _, w2) => (Ok tt, emit (EvWarn "PublicKeyStorage.setCachedPublicKey") w2)
  end.
Proof.
  intros cacheKey entry w1. unfold setCachedPublicKey.
  fold cacheKey. unfold bind at 1. unfold get_world at 1. cbv beta iota.
  fold entry. unfold bind at 1. unfold modify at 1. cbv beta iota. fold w1.
  unfold tryCatch, bind.
  destruct (GenericStringStorage.get STORAGE_KEY w1) as [[[[table| |]|]|err] w2];
    simpl; try reflexivity.
  - destruct (GenericStringStorage.set _ _ w2) as [[[]|err] w3]; reflexivity.
  - rewrite insert_empty.
    destruct (GenericStringStorage.set _ _ w2) as [[[]|err] w3]; reflexivity.
Qed.

Lemma stored_entry_emit ev w k : stored_entry (emit ev w) k = stored_entry w k.
Proof. reflexivity. Qed.

Lemma stored_entry_set_faults fs w k : stored_entry (set_faults fs w) k = stored_entry w k.
Proof. reflexivity. Qed.

Lemma stored_entry_set_memoryCache f w k :
  stored_entry (set_memoryCache f w) k = stored_entry w k.
Proof. reflexivity. Qed.

Lemma stored_entry_put table w k :
  stored_entry (set_db (insert STORAGE_KEY (TJson table)) w) k = table !! k.
Proof. unfold stored_entry. simpl. by rewrite lookup_insert_eq. Qed.

(** C5, as the code has it.  With [entry] the new entry of key A:
    when the load of the persistent table succeeds, [setCachedPublicKey]
    leaves the entry of every other key as it was; if the write-back
    succeeds too and the stored text parses, A's entry is then [entry];
    if the stored text does not parse, or the write-back rejects, the
    store is unchanged.  When the load rejects, a write-back that succeeds
    replaces the table by one that holds [entry] alone, and one that
    rejects leaves the store unchanged. *)
Theorem set_merges_when_load_succeeds chainId pk kms w :
  let A := getCacheKey chainId kms in
  let entry := {| publicKey := pk; timestamp := now w |} in
  let w' := (setCachedPublicKey chainId pk kms w).2 in
  (next_request_succeeds w →
   (∀ B, B ≠ A → stored_entry w' B = stored_entry w B)
   ∧ (next_request_succeeds (after_request w) →
      db w !! STORAGE_KEY ≠ Some TMalformed →
      stored_entry w' A = Some entry)
   ∧ (db w !! STORAGE_KEY = Some TMalformed → db w' = db w)
   ∧ (¬ next_request_succeeds (after_request w) → db w' = db w))
  ∧ (¬ next_request_succeeds w →
     (next_request_succeeds (after_request w) →
      db w' !! STORAGE_KEY = Some (TJson {[ A := entry ]}))
     ∧ (¬ next_request_succeeds (after_request w) → db w' = db w)).
Proof.
  cbv zeta. rewrite setCachedPublicKey_eq. cbv zeta.
  generalize (getCacheKey chainId kms). intros A.
  set (entry := {| publicKey := pk; timestamp := now w |}).
  rewrite get_eq. unfold next_request_succeeds, after_request. simpl.
  (* the fates of the load and of the write-back, and what is stored *)
  destruct (faults w) as [|[] [|[] fs]] eqn:Hf; simpl;
    (destruct (db w !! STORAGE_KEY) as [[table| |]|] eqn:Hdb; simpl;
     rewrite ?set_eq; simpl; rewrite ?Hf; simpl;
     (split; [intros Hload; split_and!; [intros B HB|intros Hwrite Hparse|intros Hbad|intros Hwrite]
             |intros Hload; split; intros Hwrite]);
     try done; try (by destruct Hload); try (by destruct Hwrite);
     rewrite ?stored_entry_emit, ?stored_entry_set_faults, ?stored_entry_put;
     unfold stored_entry; simpl; rewrite ?Hdb;
     rewrite ?lookup_insert_eq, ?insert_empty; try done;
     try (rewrite lookup_insert_ne by done); try done;
     try (by rewrite lookup_empty);
     try (by rewrite lookup_singleton_ne);
     try (by rewrite lookup_singleton_eq)).
Qed.

(** ** No storage failure reaches the caller, except from [clearAll] *)

Lemma getCachedPublicKey_never_throws chainId kms w :
  ∃ v, (getCachedPublicKey chainId kms w).1 = Ok v.
Proof.
  unfold getCachedPublicKey. generalize (getCacheKey chainId kms). intros k.
  unfold bind at 1. unfold get_world at 1. cbv beta iota.
  unfold bind at 1. rewrite present_and_valid_eq. cbv beta iota.
  assert (Hrest : ∀ w', ∃ v,
    (tryCatch
      (let* storedData := GenericStringStorage.get STORAGE_KEY in
       match storedData with
       | Some text =>
         let* parsedData := JSON.parse text in
         let entry := parsedData !! k in
         let* ok := present_and_valid entry in
         match entry, ok with
         | Some e, true =>
           modify (set_memoryCache (insert k e)) ;; ret (Some (publicKey e))
         | _, _ => ret None
         end
       | None => ret None
       end)
      (λ error, tell (EvWarn "PublicKeyStorage.getCachedPublicKey") ;; ret None) w').1 = Ok v).
  { intros w'. unfold tryCatch.
    match goal with |- ∃ v, (match ?m w' with _ => _ end).1 = _ =>
      destruct (m w') as [[v|err] w2] end; simpl; eauto. }
  destruct (memoryCache w !! k) as [e|]; [destruct (valid_at (now w) e)|]; simpl; eauto.
Qed.

Lemma setCachedPublicKey_never_throws chainId pk kms w :
  (setCachedPublicKey chainId pk kms w).1 = Ok tt.
Proof.
  rewrite setCachedPublicKey_eq. cbv zeta.
  destruct (GenericStringStorage.get _ _) as [[[[table| |]|]|err] w2]; try reflexivity;
    destruct (GenericStringStorage.set _ _ w2) as [[[]|err] w3]; reflexivity.
Qed.

Lemma cleanupExpiredEntries_never_throws w :
  (cleanupExpiredEntries w).1 = Ok tt.
Proof.
  unfold cleanupExpiredEntries, tryCatch.
  match goal with |- (match ?m w with _ => _ end).1 = _ =>
    destruct (m w) as [[[]|err] w2] end; reflexivity.
Qed.

Lemma getCacheStats_never_throws w :
  ∃ v, (getCacheStats w).1 = Ok v.
Proof.
  unfold getCacheStats. unfold bind at 1. unfold tryCatch.
  match goal with |- ∃ v, (match (match ?m w with _ => _ end) with _ => _ end).1 = _ =>
    destruct (m w) as [[c|err] w2] end; simpl; eauto.
Qed.

Lemma cleanupExpiredEntries_eq w :
  cleanupExpiredEntries w =
  match GenericStringStorage.get STORAGE_KEY w with
  | (Ok None, w1) => (Ok tt, w1)
  | (Ok (Some (TJson table)), w1) =>
    let w2 := set_memoryCache
                (λ _, filter (λ kv, valid_at (now w1) kv.2 = true) (memoryCache w1)) w1 in
    if has_expired (now w1) table || has_expired (now w1) (memoryCache w1)
    then match GenericStringStorage.set STORAGE_KEY
                 (TJson (filter (λ kv, valid_at (now w1) kv.2 = true) table)) w2 with
         | (Ok _, w3) => (Ok tt, w3)
         | (Throw _, w3) =>
           (Ok tt, emit (EvWarn "PublicKeyStorage.cleanupExpiredEntries") w3)
         end
    else (Ok tt, w2)
  | (Ok (Some _), w1) => (Ok tt, emit (EvWarn "PublicKeyStorage.cleanupExpiredEntries") w1)
  | (Throw _, w1) => (Ok tt, emit (EvWarn "PublicKeyStorage.cleanupExpiredEntries") w1)
  end.
Proof.
  unfold cleanupExpiredEntries, tryCatch, bind.
  destruct (GenericStringStorage.get STORAGE_KEY w) as [[[[table| |]|]|err] w1];
    simpl; try reflexivity.
  destruct (has_expired (now w1) table || has_expired (now w1) (memoryCache w1));
    simpl; [|reflexivity].
  destruct (GenericStringStorage.set _ _ _) as [[[]|err] w3]; reflexivity.
Qed.

(** The cleanup does not touch the signal. *)
Lemma cleanupExpiredEntries_signal w :
  aborted (cleanupExpiredEntries w).2 = aborted w
  ∧ abortDuring (cleanupExpiredEntries w).2 = abortDuring w.
Proof.
  rewrite cleanupExpiredEntries_eq.
  pose proof (get_frame STORAGE_KEY w) as (_ & _ & Ha1 & Hd1).
  destruct (GenericStringStorage.get STORAGE_KEY w) as [[[[table| |]|]|err] w1];
    simpl in Ha1, Hd1; simpl; try done.
  destruct (has_expired (now w1) table || has_expired (now w1) (memoryCache w1));
    simpl; [|done].
  match goal with |- context [GenericStringStorage.set ?k ?v ?w2] =>
    pose proof (set_frame k v w2) as (_ & _ & Ha3 & Hd3);
    destruct (GenericStringStorage.set k v w2) as [[[]|err] w3] end;
    simpl in Ha3, Hd3; simpl; by rewrite Ha3, Hd3.
Qed.

(** C6, at the failing call: a [db.delete] that rejects makes [clearAll]
    throw, after it has emptied the volatile tier. *)
Theorem clearAll_propagates_delete_failure w fs :
  (clearAll (set_faults (true :: fs) w)).1 = Throw IoError
  ∧ memoryCache (clearAll (set_faults (true :: fs) w)).2 = ∅.
Proof.
  unfold clearAll, bind, modify. rewrite delete_eq. split; reflexivity.
Qed.

(** The volatile tier holds the fresh entry after [setCachedPublicKey],
    and the clock is not touched. *)
Lemma setCachedPublicKey_memory chainId pk kms w :
  memoryCache (setCachedPublicKey chainId pk kms w).2 !! getCacheKey chainId kms
    = Some {| publicKey := pk; timestamp := now w |}
  ∧ now (setCachedPublicKey chainId pk kms w).2 = now w.
Proof.
  rewrite setCachedPublicKey_eq. cbv zeta.
  generalize (getCacheKey chainId kms). intros k.
  set (entry := {| publicKey := pk; timestamp := now w |}).
  set (w1 := set_memoryCache (insert k entry) w).
  pose proof (get_frame STORAGE_KEY w1) as (Hm2 & Hn2 & _).
  destruct (GenericStringStorage.get STORAGE_KEY w1) as [[[[table| |]|]|err] w2];
    simpl in Hm2, Hn2; simpl;
    try (split; [rewrite Hm2; apply lookup_insert_eq | exact Hn2]).
  - pose proof (set_frame STORAGE_KEY (TJson (<[k:=entry]> table)) w2) as (Hm3 & Hn3 & _).
    destruct (GenericStringStorage.set _ _ w2) as [[[]|err] w3];
      simpl in Hm3, Hn3; simpl; rewrite Hm3, Hn3, Hm2;
      (split; [apply lookup_insert_eq | exact Hn2]).
  - pose proof (set_frame STORAGE_KEY (TJson {[k:=entry]}) w2) as (Hm3 & Hn3 & _).
    destruct (GenericStringStorage.set _ _ w2) as [[[]|err] w3];
      simpl in Hm3, Hn3; simpl; rewrite Hm3, Hn3, Hm2;
      (split; [apply lookup_insert_eq | exact Hn2]).
Qed.

(** Scenario B of the specification: a get right after a set is served
    from the volatile tier. *)
Lemma get_after_set chainId pk kms kms' w :
  getCacheKey chainId kms' = getCacheKey chainId kms →
  getCachedPublicKey chainId kms' (setCachedPublicKey chainId pk kms w).2
  = (Ok (Some pk), (setCachedPublicKey chainId pk kms w).2).
Proof.
  intros Hk.
  destruct (setCachedPublicKey_memory chainId pk kms w) as [Hm Hnow].
  rewrite (getCachedPublicKey_memory_hit _ _ _ {| publicKey := pk; timestamp := now w |}).
  - reflexivity.
  - by rewrite Hk.
  - apply valid_at_true. rewrite Hnow. simpl. unfold CACHE_DURATION. lia.
Qed.

(** C10. The empty string and the absent authority give the same cache
    key, for every chain id, so the two forms of a call behave alike and a
    value stored under one is returned under the other. *)
Theorem empty_authority_is_absent_authority chainId pk w :
  getCacheKey chainId (Some "") = getCacheKey chainId None
  ∧ getCachedPublicKey chainId (Some "") w = getCachedPublicKey chainId None w
  ∧ setCachedPublicKey chainId pk (Some "") w = setCachedPublicKey chainId pk None w
  ∧ (getCachedPublicKey chainId (Some "")
       (setCachedPublicKey chainId pk None w).2).1 = Ok (Some pk)
  ∧ (getCachedPublicKey chainId None
       (setCachedPublicKey chainId pk (Some "") w).2).1 = Ok (Some pk).
Proof.
  repeat split; try reflexivity; by rewrite get_after_set.
Qed.

(** C4, at Scenario A of the specification and its fresh counterpart. *)
Lemma ttl_correct_in_both_tiers_witness :
  (getCachedPublicKey 1337 None world_23h).1 = Ok (Some "K1")
  ∧ (getCachedPublicKey 1337 None world_25h).1 = Ok None.
Proof.
  split.
  - apply (ttl_correct_in_both_tiers 1337 None world_23h entry_23h).
    + right. repeat split; vm_compute; congruence.
    + vm_compute. reflexivity.
  - apply (ttl_correct_in_both_tiers 1337 None world_25h entry_25h).
    + right. repeat split; vm_compute; congruence.
    + vm_compute. congruence.
Defined.

(** C9 at Scenario A's entry, with the read succeeding and rejecting. *)
Lemma readable_persistent_hit_is_promoted_witness :
  ((getCachedPublicKey 1337 None world_23h).1 = Ok (Some "K1")
   ∧ memoryCache (getCachedPublicKey 1337 None world_23h).2 !! getCacheKey 1337 None
     = Some entry_23h)
  ∧ ((getCachedPublicKey 1337 None world_23h_failed_read).1 = Ok None
     ∧ memoryCache (getCachedPublicKey 1337 None world_23h_failed_read).2
       = memoryCache world_23h_failed_read).
Proof.
  split.
  - apply (readable_persistent_hit_is_promoted 1337 None world_23h entry_23h).
    + intros e He. vm_compute in He. congruence.
    + vm_compute. reflexivity.
    + vm_compute. reflexivity.
    + vm_compute. congruence.
  - apply (readable_persistent_hit_is_promoted 1337 None world_23h_failed_read entry_23h).
    + intros e He. vm_compute in He. congruence.
    + vm_compute. reflexivity.
    + vm_compute. reflexivity.
    + vm_compute. intros H. by apply H.
Defined.

(** C9 fails as stated: the unexpired entry is in the persistent tier
    only, the store's read rejects, the adapter turns that into null, and
    the call returns null and promotes nothing. *)
Lemma failed_read_hides_persistent_entry :
  memoryCache world_23h_failed_read !! getCacheKey 1337 None = None
  ∧ stored_entry world_23h_failed_read (getCacheKey 1337 None) = Some entry_23h
  ∧ valid_at (now world_23h_failed_read) entry_23h = true
  ∧ (getCachedPublicKey 1337 None world_23h_failed_read).1 = Ok None
  ∧ memoryCache (getCachedPublicKey 1337 None world_23h_failed_read).2
      !! getCacheKey 1337 None = None.
Proof. repeat split; vm_compute; congruence. Qed.

(** C4 fails as stated, in each tier.  An entry 23 hours old that the
    persistent tier alone holds is answered as absent when the store's
    read rejects; and an entry 25 hours old in the volatile tier does not
    make the answer absent when the persistent tier holds a newer entry,
    whose value is returned. *)
Lemma ttl_fails_without_agreeing_tiers :
  (memoryCache world_23h_failed_read !! getCacheKey 1337 None = None
   ∧ stored_entry world_23h_failed_read (getCacheKey 1337 None) = Some entry_23h
   ∧ (now world_23h_failed_read < timestamp entry_23h + CACHE_DURATION)%Z
   ∧ (getCachedPublicKey 1337 None world_23h_failed_read).1 = Ok None)
  ∧ (memoryCache world_stale_memory !! getCacheKey 1337 None = Some entry_25h
     ∧ (timestamp entry_25h + CACHE_DURATION ≤ now world_stale_memory)%Z
     ∧ (getCachedPublicKey 1337 None world_stale_memory).1 = Ok (Some "K2")).
Proof. repeat split; vm_compute; congruence. Qed.

(** C5 fails as stated: the load of the persistent table rejects, the
    storage adapter turns that into null, the table is taken to be empty,
    and the write-back replaces it by the new entry alone. *)
Lemma set_after_failed_load_drops_other_keys :
  stored_entry world_BC_failed_load "1_default" = Some entry_B
  ∧ stored_entry world_BC_failed_load "2_default" = Some entry_C
  ∧ PublicKeyStorage.getCacheKey 3 None ≠ "1_default"
  ∧ PublicKeyStorage.getCacheKey 3 None ≠ "2_default"
  ∧ stored_entry (setCachedPublicKey 3 "KA" None world_BC_failed_load).2 "1_default" = None
  ∧ stored_entry (setCachedPublicKey 3 "KA" None world_BC_failed_load).2 "2_default" = None.
Proof.
  repeat split; vm_compute; congruence.
Qed.

(** C5 at the table of chains 1 and 2, on a healthy store and behind a
    load that rejects. *)
Lemma set_merges_when_load_succeeds_witness :
  ((∀ B, B ≠ getCacheKey 3 None →
         stored_entry (setCachedPublicKey 3 "KA" None world_BC).2 B = stored_entry world_BC B)
   ∧ stored_entry (setCachedPublicKey 3 "KA" None world_BC).2 (getCacheKey 3 None)
     = Some {| publicKey := "KA"; timestamp := now world_BC |})
  ∧ db (setCachedPublicKey 3 "KA" None world_BC_failed_load).2 !! STORAGE_KEY
    = Some (TJson {[ getCacheKey 3 None
                     := {| publicKey := "KA"; timestamp := now world_BC_failed_load |} ]}).
Proof.
  split; [split|].
  - apply (set_merges_when_load_succeeds 3 "KA" None world_BC).
    vm_compute. congruence.
  - apply (set_merges_when_load_succeeds 3 "KA" None world_BC);
      vm_compute; congruence.
  - apply (set_merges_when_load_succeeds 3 "KA" None world_BC_failed_load).
    + vm_compute. intros H. by apply H.
    + vm_compute. congruence.
Defined.

End KeyCache.

(** ** The wrapped instance's encryption entry points *)

Section Facade.
Import Fhevm.

Lemma encrypt32_delegates self value w :
  in_uint32 value →
  encrypt32 self value w
  = (raw_encrypt32 (fhevmInstance self) value, emit (EvEncrypt32 value) w).
Proof.
  intros (z & -> & Hz). unfold encrypt32. simpl.
  destruct (z <? 0)%Z eqn:Hlo; [lia|].
  destruct (z >? 4294967295)%Z eqn:Hhi; [lia|]. reflexivity.
Qed.

Lemma encrypt32_rejects self value w :
  ¬ in_uint32 value →
  ∃ message, encrypt32 self value w = (Throw (JsError message), w).
Proof.
  intros Hout. unfold encrypt32.
  destruct value as [| | |[z|]| | |]; simpl; eauto.
  destruct (z <? 0)%Z eqn:Hlo; simpl; eauto.
  destruct (z >? 4294967295)%Z eqn:Hhi; simpl; eauto.
  destruct Hout. exists z. split; [reflexivity|lia].
Qed.

Lemma encrypt64_delegates self value w :
  in_uint64 value →
  encrypt64 self value w
  = (raw_encrypt64 (fhevmInstance self) value, emit (EvEncrypt64 value) w).
Proof.
  intros (z & -> & Hz). unfold encrypt64. simpl.
  destruct (z <? 0)%Z eqn:Hlo; [lia|].
  destruct (z >? 18446744073709551615)%Z eqn:Hhi; [lia|]. reflexivity.
Qed.

Lemma encrypt64_rejects self value w :
  ¬ in_uint64 value →
  ∃ message, encrypt64 self value w = (Throw (JsError message), w).
Proof.
  intros Hout. unfold encrypt64.
  destruct value as [| | |[z|]|z| |]; simpl; eauto.
  destruct (z <? 0)%Z eqn:Hlo; simpl; eauto.
  destruct (z >? 18446744073709551615)%Z eqn:Hhi; simpl; eauto.
  destruct Hout. exists z. split; [reflexivity|lia].
Qed.

Lemma encryptBool_delegates self value w :
  is_boolean value →
  encryptBool self value w
  = (raw_encryptBool (fhevmInstance self) value, emit (EvEncryptBool value) w).
Proof. intros (b & ->). reflexivity. Qed.

Lemma encryptBool_rejects self value w :
  ¬ is_boolean value →
  ∃ message, encryptBool self value w = (Throw (JsError message), w).
Proof.
  intros Hout. unfold encryptBool.
  destruct value as [| |b|[z|]| | |]; simpl; eauto.
  destruct Hout. by exists b.
Qed.

(** C7. Each encryption entry point hands a value of its range to the
    external instance and returns what that answers; for any other value
    it throws an [Error] at once and leaves the world as it was, so the
    external instance is not called.  The ranges: integers in
    [0, 2^32-1] held by a number for [encrypt32], bigints in [0, 2^64-1]
    for [encrypt64], booleans for [encryptBool]. *)
Theorem encryption_entry_points_validate self value w :
  (in_uint32 value →
   encrypt32 self value w
   = (raw_encrypt32 (fhevmInstance self) value, emit (EvEncrypt32 value) w))
  ∧ (¬ in_uint32 value →
     ∃ message, encrypt32 self value w = (Throw (JsError message), w))
  ∧ (in_uint64 value →
     encrypt64 self value w
     = (raw_encrypt64 (fhevmInstance self) value, emit (EvEncrypt64 value) w))
  ∧ (¬ in_uint64 value →
     ∃ message, encrypt64 self value w = (Throw (JsError message), w))
  ∧ (is_boolean value →
     encryptBool self value w
     = (raw_encryptBool (fhevmInstance self) value, emit (EvEncryptBool value) w))
  ∧ (¬ is_boolean value →
     ∃ message, encryptBool self value w = (Throw (JsError message), w)).
Proof.
  repeat split.
  - apply encrypt32_delegates.
  - apply encrypt32_rejects.
  - apply encrypt64_delegates.
  - apply encrypt64_rejects.
  - apply encryptBool_delegates.
  - apply encryptBool_rejects.
Qed.

Lemma encryption_entry_points_validate_witness :
  encrypt32 sample_instance (VNumber (Integral 7)) world_empty
    = (Ok [32%Z], emit (EvEncrypt32 (VNumber (Integral 7))) world_empty)
  ∧ (∃ message, encrypt32 sample_instance (VNumber (Integral (2 ^ 32))) world_empty
                = (Throw (JsError message), world_empty))
  ∧ encrypt64 sample_instance (VBigInt (2 ^ 64 - 1)) world_empty
    = (Ok [64%Z], emit (EvEncrypt64 (VBigInt (2 ^ 64 - 1))) world_empty)
  ∧ (∃ message, encrypt64 sample_instance (VNumber (Integral 7)) world_empty
                = (Throw (JsError message), world_empty))
  ∧ encryptBool sample_instance (VBoolean true) world_empty
    = (Ok [1%Z], emit (EvEncryptBool (VBoolean true)) world_empty)
  ∧ (∃ message, encryptBool sample_instance (VString "true") world_empty
                = (Throw (JsError message), world_empty)).
Proof.
  split_and!.
  - apply (encryption_entry_points_validate
             sample_instance (VNumber (Integral 7)) world_empty).
    exists 7%Z. split; [reflexivity|lia].
  - apply (encryption_entry_points_validate
             sample_instance (VNumber (Integral (2 ^ 32))) world_empty).
    intros (z & Heq & Hz). injection Heq as <-. lia.
  - apply (encryption_entry_points_validate
             sample_instance (VBigInt (2 ^ 64 - 1)) world_empty).
    exists (2 ^ 64 - 1)%Z. split; [reflexivity|lia].
  - apply (encryption_entry_points_validate
             sample_instance (VNumber (Integral 7)) world_empty).
    intros (z & Heq & Hz). discriminate Heq.
  - apply (encryption_entry_points_validate
             sample_instance (VBoolean true) world_empty).
    by exists true.
  - apply (encryption_entry_points_validate
             sample_instance (VString "true") world_empty).
    intros (b & Heq). discriminate Heq.
Defined.

End Facade.

(** ** The hook *)

Section Hook.
Import UseFhevm.

(** A settlement that arrives with the attempt's signal aborted is
    dropped: it only logs. *)
Lemma settle_aborted a r h :
  signal_aborted (thisSignal a) h = true →
  (settle a r h).1 = Ok tt
  ∧ observable (settle a r h).2 = observable h
  ∧ published (settle a r h).2 = published h
  ∧ controllers (settle a r h).2 = controllers h
  ∧ _providerRef (settle a r h).2 = _providerRef h.
Proof.
  intros Ha. destruct r as [i|e]; unfold settle, onFulfilled, onRejected;
    unfold signal_aborted in *; simpl; rewrite Ha; done.
Qed.

(** A settlement of the attempt that is still current is stored. *)
Lemma settle_current a r h :
  signal_aborted (thisSignal a) h = false →
  thisProvider a = _providerRef h →
  (settle a r h).1 = Ok tt
  ∧ observable (settle a r h).2 = outcome r
  ∧ published (settle a r h).2 = published h ++ [(a, r)]
  ∧ controllers (settle a r h).2 = controllers h
  ∧ _providerRef (settle a r h).2 = _providerRef h.
Proof.
  intros Ha Hp. destruct r as [i|e]; unfold settle, onFulfilled, onRejected, _assert;
    unfold signal_aborted in *; simpl; rewrite Ha; simpl;
    rewrite bool_decide_eq_true_2 by done; done.
Qed.


(** What [start] does on an enabled hook when it is given a provider: it
    aborts the current controller, creates a new one, and starts an
    attempt that captures the new identity and the new signal. *)
Lemma start_with_provider p c h :
  _isRunning h = true →
  let a := {| thisSignal := length (controllers_after_abort h);
              thisProvider := Some p;
              thisChainId := c;
              thisRpcUrlsByChainId := _mockChainsRef h |} in
  (start (Some p) c h).1 = Ok (Some a)
  ∧ controllers (start (Some p) c h).2 = controllers_after_abort h ++ [false]
  ∧ _abortControllerRef (start (Some p) c h).2 = Some (thisSignal a)
  ∧ _providerRef (start (Some p) c h).2 = Some p
  ∧ _chainIdRef (start (Some p) c h).2 = c
  ∧ _isRunning (start (Some p) c h).2 = true
  ∧ _mockChainsRef (start (Some p) c h).2 = _mockChainsRef h
  ∧ observable (start (Some p) c h).2 = (None, st_loading, None)
  ∧ published (start (Some p) c h).2 = published h.
Proof.
  intros Hrun a. subst a. unfold start, controllers_after_abort.
  destruct h as [i s e run n ref pr cr mr cs con pub]. simpl in Hrun. subst run.
  assert (Hn : bool_decide (S n = n) = false) by (apply bool_decide_eq_false_2; lia).
  destruct ref as [k|]; unfold refresh; simpl; rewrite Hn;
    unfold mainEffect, _assert, signal_aborted; simpl;
    rewrite lookup_app_r by lia; rewrite Nat.sub_diag; simpl; done.
Qed.

(** *** Runs of the hook *)

























End Hook.

(** ** The construction sequence *)

Section Construction.
Import Fhevm.

(** C1, at the failing run.  Every collaborator succeeds and the signal is
    aborted while the construction waits for [getPublicKey].  The signal
    is not looked at again: the key is written into the persistent table
    after the abort, and the wrapped instance is returned. *)
Theorem abort_during_getPublicKey_still_writes_cache :
  stored_entry world_abort_during_getPublicKey "5_default" = None
  ∧ aborted (createFhevmInstance (sample_external (Ok 5%Z)) (sample_options (Some 5%Z))
               world_abort_during_getPublicKey).2 = true
  ∧ trace (createFhevmInstance (sample_external (Ok 5%Z)) (sample_options (Some 5%Z))
             world_abort_during_getPublicKey).2
    = [ EvInitSDK (DefaultCfg 5 (Some (PObj 0)) None None None);
        EvCreateInstance (DefaultCfg 5 (Some (PObj 0)) None None None);
        EvGetPublicKey;
        EvAbort;
        EvDbPut PublicKeyStorage.STORAGE_KEY ]
  ∧ stored_entry (createFhevmInstance (sample_external (Ok 5%Z)) (sample_options (Some 5%Z))
                    world_abort_during_getPublicKey).2 "5_default"
    = Some {| publicKey := "PK-authority"; timestamp := 100 * hour |}.
Proof. repeat split; vm_compute; reflexivity. Qed.

(** C8 fails as stated: with no chain id given and a network query that
    fails, the configuration handed to the builder carries chain id 1337. *)
Lemma undetected_chain_id_is_1337_for_the_builder :
  chainId (sample_options None) = None
  ∧ getNetwork (sample_external (Throw (ExternalError "network down")))
    = Throw (ExternalError "network down")
  ∧ trace (createFhevmInstance (sample_external (Throw (ExternalError "network down")))
             (sample_options None) world_empty).2
    = [ EvWarn "Could not detect chain ID";
        EvInitSDK (DefaultCfg 1337 (Some (PObj 0)) None None None);
        EvCreateInstance (DefaultCfg 1337 (Some (PObj 0)) None None None) ].
Proof. repeat split; vm_compute; reflexivity. Qed.

Lemma checkAborted_quiet options w :
  aborted w = false → checkAborted options w = (Ok tt, w).
Proof.
  intros Ha. unfold checkAborted, bind, get_world. rewrite Ha.
  by rewrite andb_false_r.
Qed.

Lemma await_quiet {A} p (m : M A) w :
  abortDuring (m w).2 = None → await p m w = m w.
Proof.
  intros Hd. unfold await. rewrite Hd. simpl.
  by destruct (m w).
Qed.

(** C8, as the code has it.  With no chain id given, a provider whose
    network query fails, no abort, and the other collaborators succeeding,
    the construction returns an instance.  The failure is logged as a
    warning; the chain id stays undefined for the cache (no lookup, no
    write) and for [getChainId]; the builder is given the default
    configuration with chain id 1337 and the caller's own key and
    addresses. *)
Theorem chain_detection_failure_is_absorbed ext options w e raw :
  chainId options = None →
  is_Some (provider options) →
  getNetwork ext = Throw e →
  sdkLoad ext = Ok tt →
  windowSDK ext = true →
  aborted w = false →
  abortDuring w = None →
  initSDK ext (DefaultCfg 1337 (provider options) (publicKeyOrAddress options)
                 (kmsContractAddress options) (aclContractAddress options)) = Ok tt →
  createInstance ext (DefaultCfg 1337 (provider options) (publicKeyOrAddress options)
                        (kmsContractAddress options) (aclContractAddress options)) = Ok raw →
  ∃ inst,
    createFhevmInstance ext options w
    = (Ok inst,
       emit (EvCreateInstance
               (DefaultCfg 1337 (provider options) (publicKeyOrAddress options)
                  (kmsContractAddress options) (aclContractAddress options)))
         (emit (EvInitSDK
                  (DefaultCfg 1337 (provider options) (publicKeyOrAddress options)
                     (kmsContractAddress options) (aclContractAddress options)))
            (PublicKeyStorage.cleanupExpiredEntries
               (set_memoryCache (λ _, ∅)
                  (emit (EvWarn "Could not detect chain ID") w))).2))
    ∧ fhevmInstance inst = raw
    ∧ getChainId inst = None.
Proof.
  intros Hc Hp Hnet Hload Hwin Ha Hd Hinit Hcreate.
  set (cfg := DefaultCfg 1337 (provider options) (publicKeyOrAddress options)
                (kmsContractAddress options) (aclContractAddress options)) in *.
  set (w0 := set_memoryCache (λ _, ∅) (emit (EvWarn "Could not detect chain ID") w)).
  pose proof (cleanupExpiredEntries_never_throws w0) as Hok.
  pose proof (cleanupExpiredEntries_signal w0) as [Ha1 Hd1].
  simpl in Ha1, Hd1. rewrite Ha in Ha1. rewrite Hd in Hd1.
  exists {| fhevmInstance := raw;
            actualChainId := None;
            capturedMockChains := default DEFAULT_MOCK_CHAINS (mockChains options);
            capturedKms := kmsContractAddress options |}.
  split; [|split; reflexivity].
  unfold createFhevmInstance.
  unfold bind at 1. rewrite checkAborted_quiet by done.
  unfold bind at 1. unfold tryCatch at 1.
  rewrite await_quiet by (unfold lift; simpl; done).
  unfold lift at 1. rewrite Hload.
  unfold bind at 1. rewrite checkAborted_quiet by done.
  unfold bind at 1. rewrite Hwin. unfold ret at 1.
  rewrite Hc. destruct Hp as [p Hp]. rewrite Hp. simpl negb.
  rewrite bool_decide_eq_true_2 by eauto. simpl andb. cbv iota.
  unfold bind at 1. unfold tryCatch at 1. unfold bind at 1.
  rewrite await_quiet by (unfold lift; simpl; done).
  unfold lift at 1. rewrite Hnet.
  unfold bind at 1. unfold tell at 1. unfold modify at 1. unfold ret at 1.
  unfold bind at 1. rewrite checkAborted_quiet by done.
  unfold bind at 1. unfold modify at 1. fold w0.
  unfold bind at 1. rewrite await_quiet by done.
  destruct (PublicKeyStorage.cleanupExpiredEntries w0) as [r1 w1] eqn:Hcl.
  simpl in Hok, Ha1, Hd1. subst r1.
  unfold bind at 1. unfold ret at 1.
  unfold selectConfig. rewrite <- Hp. fold cfg.
  unfold bind at 1. rewrite checkAborted_quiet by done.
  unfold bind at 1. unfold tryCatch at 1.
  rewrite await_quiet by (unfold bind, tell, modify, lift; simpl; done).
  unfold bind at 1. unfold tell at 1. unfold modify at 1. unfold lift at 1.
  rewrite Hinit.
  unfold bind at 1. rewrite checkAborted_quiet by done.
  unfold bind at 1. unfold tryCatch at 1.
  rewrite await_quiet by (unfold bind, tell, modify, lift; simpl; done).
  unfold bind at 1. unfold tell at 1. unfold modify at 1. unfold lift at 1.
  rewrite Hcreate.
  unfold bind at 1. rewrite checkAborted_quiet by done.
  unfold bind at 1. unfold ret. reflexivity.
Qed.

Lemma chain_detection_failure_is_absorbed_witness :
  ∃ inst,
    createFhevmInstance (sample_external (Throw (ExternalError "network down")))
                        (sample_options None) world_empty
    = (Ok inst,
       emit (EvCreateInstance (DefaultCfg 1337 (Some (PObj 0)) None None None))
         (emit (EvInitSDK (DefaultCfg 1337 (Some (PObj 0)) None None None))
            (PublicKeyStorage.cleanupExpiredEntries
               (set_memoryCache (λ _, ∅)
                  (emit (EvWarn "Could not detect chain ID") world_empty))).2))
    ∧ fhevmInstance inst = sample_raw
    ∧ getChainId inst = None.
Proof.
  apply (chain_detection_failure_is_absorbed
           (sample_external (Throw (ExternalError "network down")))
           (sample_options None) world_empty (ExternalError "network down") sample_raw);
    try reflexivity.
  simpl. eauto.
Defined.

End Construction.

(** * Further properties of the storage adapter *)

Section Store.
Import GenericStringStorage.

Lemma exists_eq key w :
  exists_ key w =
  match faults w with
  | true :: fs => (Ok false, emit (EvWarn "GenericStringStorage.exists") (set_faults fs w))
  | false :: fs => (Ok (bool_decide (is_Some (db w !! key))), set_faults fs w)
  | [] => (Ok (bool_decide (is_Some (db w !! key))), w)
  end.
Proof.
  unfold exists_, tryCatch, bind. rewrite request_eq.
  destruct (faults w) as [|[] fs]; reflexivity.
Qed.

(** X1. Read your writes, on a store whose requests succeed: after
    [set key value] a [get] of that key returns the value (null when the
    value is the empty string), after [delete key] it returns null, and in
    both cases every other key reads as before. *)
Theorem store_reads_its_writes key key' value w :
  faults w = [] →
  (get key' (set key value w).2).1
    = Ok (if decide (key' = key) then or_null (Some value) else or_null (db w !! key'))
  ∧ (get key' (delete key w).2).1
    = Ok (if decide (key' = key) then None else or_null (db w !! key')).
Proof.
  intros Hf. rewrite set_eq, delete_eq, Hf. simpl.
  rewrite !get_eq. simpl. rewrite Hf. simpl.
  split; case_decide as Hk; subst.
  - by rewrite lookup_insert_eq.
  - by rewrite lookup_insert_ne.
  - by rewrite lookup_delete_eq.
  - by rewrite lookup_delete_ne.
Qed.

Lemma store_reads_its_writes_witness :
  (get "k" (set "k" TMalformed world_empty).2).1
    = Ok (if decide ("k" = "k") then or_null (Some TMalformed)
          else or_null (db world_empty !! "k"))
  ∧ (get "k" (delete "k" world_empty).2).1
    = Ok (if decide ("k" = "k") then None else or_null (db world_empty !! "k")).
Proof.
  apply (store_reads_its_writes "k" "k" TMalformed world_empty). reflexivity.
Defined.

(** X2. [get] and [exists] disagree on the empty string: on a store whose
    requests succeed, [exists] answers whether the key has a value at all,
    while [get] answers null both for a missing key and for a stored empty
    string. *)
Theorem exists_counts_the_empty_string_get_does_not key w :
  faults w = [] →
  (exists_ key w).1 = Ok (bool_decide (is_Some (db w !! key)))
  ∧ ((get key w).1 = Ok None ↔ db w !! key = None ∨ db w !! key = Some TEmpty).
Proof.
  intros Hf. rewrite exists_eq, get_eq, Hf. simpl. split; [done|].
  destruct (db w !! key) as [[table| |]|]; simpl; split;
    try (intros [?|?]); try done; eauto.
Qed.

Lemma exists_counts_the_empty_string_get_does_not_witness :
  (exists_ "k" (quiet_world 0 {[ "k" := TEmpty ]} [] ∅)).1
    = Ok (bool_decide (is_Some (db (quiet_world 0 {[ "k" := TEmpty ]} [] ∅) !! "k")))
  ∧ ((get "k" (quiet_world 0 {[ "k" := TEmpty ]} [] ∅)).1 = Ok None
     ↔ db (quiet_world 0 {[ "k" := TEmpty ]} [] ∅) !! "k" = None
       ∨ db (quiet_world 0 {[ "k" := TEmpty ]} [] ∅) !! "k" = Some TEmpty).
Proof.
  apply (exists_counts_the_empty_string_get_does_not
           "k" (quiet_world 0 {[ "k" := TEmpty ]} [] ∅)).
  reflexivity.
Defined.

(** A request that rejects: the two reads swallow it ([get] answers
    null, [exists] answers false, each with a warning), the two writes log
    it and rethrow it, and in every case the stored data stay as they
    were. *)
Theorem store_reads_swallow_writes_rethrow key value fs w :
  (get key (set_faults (true :: fs) w)).1 = Ok None
  ∧ (exists_ key (set_faults (true :: fs) w)).1 = Ok false
  ∧ (set key value (set_faults (true :: fs) w)).1 = Throw IoError
  ∧ (delete key (set_faults (true :: fs) w)).1 = Throw IoError
  ∧ db (get key (set_faults (true :: fs) w)).2 = db w
  ∧ db (exists_ key (set_faults (true :: fs) w)).2 = db w
  ∧ db (set key value (set_faults (true :: fs) w)).2 = db w
  ∧ db (delete key (set_faults (true :: fs) w)).2 = db w.
Proof.
  rewrite get_eq, exists_eq, set_eq, delete_eq. simpl. done.
Qed.

Lemma request_healthy w : faults w = [] → request w = (Ok tt, w).
Proof. intros Hf. by rewrite request_eq, Hf. Qed.

Lemma import_loop_healthy entries w :
  faults w = [] →
  (import_loop entries w).1 = Ok tt
  ∧ db (import_loop entries w).2 = foldl (λ d kv, <[kv.1 := kv.2]> d) (db w) entries
  ∧ faults (import_loop entries w).2 = [].
Proof.
  revert w. induction entries as [|[k v] rest IH]; intros w Hf; [done|].
  assert (Heq : import_loop ((k, v) :: rest) w
                = import_loop rest (emit (EvDbPut k) (set_db (insert k v) w))).
  { simpl. unfold bind at 1. rewrite request_healthy by done. reflexivity. }
  rewrite Heq. by apply IH.
Qed.

Lemma foldl_insert_union (l : list (string * Text)) (m : gmap string Text) :
  NoDup l.*1 →
  foldl (λ d kv, <[kv.1 := kv.2]> d) m l = list_to_map l ∪ m.
Proof.
  revert m. induction l as [|[k v] l IH]; intros m Hnd; simpl.
  - by rewrite (left_id_L ∅ (∪)).
  - apply NoDup_cons in Hnd as [Hk Hnd]. rewrite IH by done.
    rewrite <- insert_union_l. apply symmetry, insert_union_r.
    by apply not_elem_of_list_to_map_1.
Qed.

Lemma export_loop_healthy keys data w :
  faults w = [] →
  export_loop keys data w
  = (Ok (foldl (λ d key, match db w !! key with
                         | Some value => <[key := value]> d
                         | None => d
                         end) data keys), w).
Proof.
  intros Hf. revert data. induction keys as [|k rest IH]; intros data; [done|].
  simpl. unfold bind at 1. rewrite request_healthy by done.
  unfold bind at 1. unfold get_world at 1. apply IH.
Qed.

Lemma export_fold_is_insert_fold (m : gmap string Text) (l : list (string * Text))
    (d : gmap string Text) :
  (∀ k v, (k, v) ∈ l → m !! k = Some v) →
  foldl (λ d key, match m !! key with
                  | Some value => <[key := value]> d
                  | None => d
                  end) d l.*1
  = foldl (λ d kv, <[kv.1 := kv.2]> d) d l.
Proof.
  revert d. induction l as [|[k v] l IH]; intros d Hl; [done|].
  simpl. rewrite (Hl k v) by left. apply IH.
  intros k' v' Hin. apply Hl. by right.
Qed.

Lemma exportData_healthy w :
  faults w = [] → exportData w = (Ok (db w), w).
Proof.
  intros Hf. unfold exportData, tryCatch. unfold bind at 1.
  rewrite request_healthy by done. unfold bind, get_world.
  rewrite export_loop_healthy by done.
  rewrite (export_fold_is_insert_fold (db w) (map_to_list (db w)) ∅).
  - rewrite foldl_insert_union by apply NoDup_fst_map_to_list.
    by rewrite list_to_map_to_list, (right_id_L ∅ (∪)).
  - intros k v Hin. by apply elem_of_map_to_list.
Qed.

(** X3. On a store whose requests succeed, [exportData] returns exactly
    the stored key-value pairs and changes nothing. *)
Theorem exportData_returns_the_store w :
  faults w = [] → exportData w = (Ok (db w), w).
Proof. apply exportData_healthy. Qed.

Lemma exportData_returns_the_store_witness :
  exportData world_BC = (Ok (db world_BC), world_BC).
Proof. apply (exportData_returns_the_store world_BC). reflexivity. Defined.

(** X4. On a store whose requests succeed, [importData] returns normally
    and leaves the imported pairs on top of what was stored; so the export
    of one store, imported into an empty one, reproduces the first. *)
Theorem importData_restores_an_export data w :
  faults w = [] →
  (importData data w).1 = Ok tt
  ∧ db (importData data w).2 = data ∪ db w
  ∧ (∀ w0, faults w0 = [] → db w = ∅ →
       ∃ exported, (exportData w0).1 = Ok exported
                   ∧ db (importData exported w).2 = db w0).
Proof.
  intros Hf.
  assert (Heq : ∀ d, importData d w = (Ok tt, (import_loop (map_to_list d) w).2)).
  { intros d. unfold importData, tryCatch, bind, get_world.
    rewrite request_healthy by done.
    destruct (import_loop_healthy (map_to_list d) w Hf) as (Hok & _ & Hfs).
    destruct (import_loop (map_to_list d) w) as [r w1]. simpl in Hok, Hfs.
    subst r. by rewrite request_healthy. }
  assert (Himp : ∀ d, (importData d w).1 = Ok tt ∧ db (importData d w).2 = d ∪ db w).
  { intros d. rewrite Heq. split; [done|]. simpl.
    destruct (import_loop_healthy (map_to_list d) w Hf) as (_ & -> & _).
    rewrite foldl_insert_union by apply NoDup_fst_map_to_list.
    by rewrite list_to_map_to_list. }
  split; [apply Himp|]. split; [apply Himp|].
  intros w0 Hf0 Hempty. exists (db w0). split.
  - by rewrite exportData_healthy.
  - destruct (Himp (db w0)) as [_ ->]. by rewrite Hempty, (right_id_L ∅ (∪)).
Qed.

Lemma importData_restores_an_export_witness :
  (importData (persisted table_BC) world_empty).1 = Ok tt
  ∧ db (importData (persisted table_BC) world_empty).2
    = persisted table_BC ∪ db world_empty
  ∧ (∀ w0, faults w0 = [] → db world_empty = ∅ →
       ∃ exported, (exportData w0).1 = Ok exported
                   ∧ db (importData exported world_empty).2 = db w0).
Proof.
  apply (importData_restores_an_export (persisted table_BC) world_empty).
  reflexivity.
Defined.

End Store.

(** * Further properties of the key cache *)

Section KeyCacheMore.
Import PublicKeyStorage.

(** X5. Scenario B: a [getCachedPublicKey] right after a
    [setCachedPublicKey] for the same chain and authority returns the key
    from the volatile tier, whatever the store did during the set, and does
    not touch the world, so no storage request is made. *)
Theorem get_after_set_is_served_from_memory chainId pk kms w :
  getCachedPublicKey chainId kms (setCachedPublicKey chainId pk kms w).2
  = (Ok (Some pk), (setCachedPublicKey chainId pk kms w).2).
Proof. by apply get_after_set. Qed.

(** The call when the volatile tier has no unexpired entry, by what the
    store answers. *)
Lemma getCachedPublicKey_miss_eq chainId kms w :
  no_valid_memory_entry w (getCacheKey chainId kms) →
  getCachedPublicKey chainId kms w =
  match GenericStringStorage.get STORAGE_KEY w with
  | (Ok (Some (TJson table)), w1) =>
    match table !! getCacheKey chainId kms with
    | Some e =>
      if valid_at (now w1) e
      then (Ok (Some (publicKey e)),
            set_memoryCache (insert (getCacheKey chainId kms) e) w1)
      else (Ok None, w1)
    | None => (Ok None, w1)
    end
  | (Ok (Some _), w1) =>
    (Ok None, emit (EvWarn "PublicKeyStorage.getCachedPublicKey") w1)
  | (Ok None, w1) => (Ok None, w1)
  | (Throw _, w1) => (Ok None, emit (EvWarn "PublicKeyStorage.getCachedPublicKey") w1)
  end.
Proof.
  intros Hn. rewrite getCachedPublicKey_memory_miss by done.
  generalize (getCacheKey chainId kms). intros k.
  unfold tryCatch, bind.
  destruct (GenericStringStorage.get STORAGE_KEY w) as [[[[table| |]|]|err] w1];
    simpl; try reflexivity.
  rewrite present_and_valid_eq.
  destruct (table !! k) as [e|]; simpl; [|reflexivity].
  destruct (valid_at (now w1) e); reflexivity.
Qed.

Lemma memory_entry_cases w k :
  (∃ e, memoryCache w !! k = Some e ∧ valid_at (now w) e = true)
  ∨ no_valid_memory_entry w k.
Proof.
  destruct (memoryCache w !! k) as [e|] eqn:Hm.
  - destruct (valid_at (now w) e) eqn:Hv; [left; eauto|].
    right. intros e' He'. congruence.
  - right. intros e' He'. congruence.
Qed.

(** X6. A key that [getCachedPublicKey] returns always is the key of an
    entry that one of the two tiers holds for the cache key and that is
    unexpired at the time of the call. *)
Theorem returned_key_comes_from_an_unexpired_entry chainId kms w pk :
  (getCachedPublicKey chainId kms w).1 = Ok (Some pk) →
  ∃ e, publicKey e = pk
       ∧ valid_at (now w) e = true
       ∧ (memoryCache w !! getCacheKey chainId kms = Some e
          ∨ stored_entry w (getCacheKey chainId kms) = Some e).
Proof.
  destruct (memory_entry_cases w (getCacheKey chainId kms)) as [(e & Hm & Hv)|Hn].
  - rewrite (getCachedPublicKey_memory_hit _ _ _ e) by done. simpl.
    intros [= <-]. eauto.
  - rewrite getCachedPublicKey_miss_eq by done.
    generalize (getCacheKey chainId kms). intros k.
    rewrite get_eq. unfold stored_entry.
    destruct (faults w) as [|[] fs]; simpl; try done;
      (destruct (db w !! STORAGE_KEY) as [[table| |]|]; simpl; try done;
       destruct (table !! k) as [e|]; simpl; try done;
       destruct (valid_at (now w) e) eqn:Hv; simpl; try done;
       intros [= <-]; eauto).
Qed.

Lemma returned_key_comes_from_an_unexpired_entry_witness :
  ∃ e, publicKey e = "K1"
       ∧ valid_at (now world_23h) e = true
       ∧ (memoryCache world_23h !! getCacheKey 1337 None = Some e
          ∨ stored_entry world_23h (getCacheKey 1337 None) = Some e).
Proof.
  apply (returned_key_comes_from_an_unexpired_entry 1337 None world_23h "K1").
  vm_compute. reflexivity.
Defined.

(** X7. [getCachedPublicKey] never writes to the store, and the only
    change it makes to the volatile tier is to copy in the unexpired
    entry that the persistent table holds for the key. *)
Theorem get_only_promotes chainId kms w :
  db (getCachedPublicKey chainId kms w).2 = db w
  ∧ (memoryCache (getCachedPublicKey chainId kms w).2 = memoryCache w
     ∨ ∃ e, stored_entry w (getCacheKey chainId kms) = Some e
            ∧ valid_at (now w) e = true
            ∧ memoryCache (getCachedPublicKey chainId kms w).2
              = <[getCacheKey chainId kms := e]> (memoryCache w)).
Proof.
  destruct (memory_entry_cases w (getCacheKey chainId kms)) as [(e & Hm & Hv)|Hn].
  - rewrite (getCachedPublicKey_memory_hit _ _ _ e) by done. simpl. eauto.
  - rewrite getCachedPublicKey_miss_eq by done.
    generalize (getCacheKey chainId kms). intros k.
    rewrite get_eq. unfold stored_entry.
    destruct (faults w) as [|[] fs]; simpl; eauto;
      (destruct (db w !! STORAGE_KEY) as [[table| |]|]; simpl; eauto;
       destruct (table !! k) as [e|] eqn:He; simpl; eauto;
       destruct (valid_at (now w) e) eqn:Hv; simpl; eauto;
       split; [done|]; right; exists e; done).
Qed.

(** X8. When its delete request succeeds, [clearAll] returns normally
    and afterwards [getCachedPublicKey] answers null for every chain and
    authority. *)
Theorem clearAll_forgets_every_key w :
  next_request_succeeds w →
  (clearAll w).1 = Ok tt
  ∧ ∀ chainId kms, (getCachedPublicKey chainId kms (clearAll w).2).1 = Ok None.
Proof.
  intros Hr. unfold next_request_succeeds in Hr.
  assert (Hc : (clearAll w).1 = Ok tt
               ∧ memoryCache (clearAll w).2 = ∅
               ∧ db (clearAll w).2 !! STORAGE_KEY = None).
  { unfold clearAll, bind, modify. rewrite delete_eq. simpl.
    destruct (faults w) as [|[] fs]; [|by destruct Hr|]; simpl;
      by rewrite lookup_delete_eq. }
  destruct Hc as (Hok & Hm & Hdb). split; [done|].
  intros chainId kms. apply getCachedPublicKey_absent.
  - intros e. by rewrite Hm, lookup_empty.
  - intros e. unfold stored_entry. by rewrite Hdb.
Qed.

Lemma clearAll_forgets_every_key_witness :
  (clearAll world_23h).1 = Ok tt
  ∧ ∀ chainId kms, (getCachedPublicKey chainId kms (clearAll world_23h).2).1 = Ok None.
Proof.
  apply (clearAll_forgets_every_key world_23h). vm_compute. congruence.
Defined.

Lemma lookup_filter_valid t (m : gmap string CacheEntry) k :
  filter (λ kv, valid_at t kv.2 = true) m !! k = unexpired t (m !! k).
Proof.
  apply option_eq. intros e. rewrite map_lookup_filter_Some. simpl.
  unfold unexpired. destruct (m !! k) as [e'|]; [|by split; [intros [? _]|]].
  destruct (valid_at t e') eqn:Hv; split.
  - by intros [? _].
  - by intros [= ->].
  - intros [[= ->] ?]. congruence.
  - done.
Qed.

Lemma has_expired_false t (m : gmap string CacheEntry) :
  has_expired t m = false ↔ ∀ k e, m !! k = Some e → valid_at t e = true.
Proof.
  unfold has_expired. rewrite negb_false_iff, bool_decide_eq_true. done.
Qed.

Lemma filter_valid_clean t (m : gmap string CacheEntry) :
  has_expired t m = false → filter (λ kv, valid_at t kv.2 = true) m = m.
Proof.
  intros Hc. apply map_filter_id. intros k e Hk. simpl.
  by apply (proj1 (has_expired_false t m) Hc k).
Qed.

Lemma has_expired_filter t (m : gmap string CacheEntry) :
  has_expired t (filter (λ kv, valid_at t kv.2 = true) m) = false.
Proof.
  apply has_expired_false. intros k e. rewrite map_lookup_filter_Some.
  by intros [_ ?].
Qed.

(** The cleanup on a store whose requests succeed and that holds a table:
    both tiers are filtered, and the table is written back when anything
    was dropped. *)
Lemma cleanupExpiredEntries_healthy w table :
  faults w = [] →
  db w !! STORAGE_KEY = Some (TJson table) →
  (cleanupExpiredEntries w).1 = Ok tt
  ∧ faults (cleanupExpiredEntries w).2 = []
  ∧ now (cleanupExpiredEntries w).2 = now w
  ∧ db (cleanupExpiredEntries w).2 !! STORAGE_KEY
    = Some (TJson (filter (λ kv, valid_at (now w) kv.2 = true) table))
  ∧ memoryCache (cleanupExpiredEntries w).2
    = filter (λ kv, valid_at (now w) kv.2 = true) (memoryCache w).
Proof.
  intros Hf Hdb. rewrite cleanupExpiredEntries_eq, get_eq, Hf. simpl.
  rewrite Hdb. simpl.
  destruct (has_expired (now w) table || has_expired (now w) (memoryCache w)) eqn:Hc.
  - rewrite set_eq. simpl. rewrite Hf. simpl. by rewrite lookup_insert_eq.
  - apply orb_false_iff in Hc as [Ht Hm]. simpl.
    by rewrite Hdb, (filter_valid_clean _ table).
Qed.

(** X9. On a store whose requests succeed and that holds a table,
    [cleanupExpiredEntries] keeps, in the persistent table and in the
    volatile tier, exactly the entries that are unexpired: every key with
    an unexpired entry keeps that entry, every other key ends up without
    one. *)
Theorem cleanup_keeps_exactly_the_unexpired w table k :
  faults w = [] →
  db w !! STORAGE_KEY = Some (TJson table) →
  stored_entry (cleanupExpiredEntries w).2 k = unexpired (now w) (stored_entry w k)
  ∧ memoryCache (cleanupExpiredEntries w).2 !! k
    = unexpired (now w) (memoryCache w !! k).
Proof.
  intros Hf Hdb.
  destruct (cleanupExpiredEntries_healthy w table Hf Hdb) as (_ & _ & _ & Hdb' & Hm').
  unfold stored_entry. rewrite Hdb', Hm', Hdb. by rewrite !lookup_filter_valid.
Qed.

Lemma cleanup_keeps_exactly_the_unexpired_witness :
  stored_entry (cleanupExpiredEntries world_25h).2 "1337_default"
    = unexpired (now world_25h) (stored_entry world_25h "1337_default")
  ∧ memoryCache (cleanupExpiredEntries world_25h).2 !! "1337_default"
    = unexpired (now world_25h) (memoryCache world_25h !! "1337_default").
Proof.
  apply (cleanup_keeps_exactly_the_unexpired
           world_25h {[ "1337_default" := entry_25h ]} "1337_default");
    reflexivity.
Defined.

(** X10. On a store whose requests succeed, a second
    [cleanupExpiredEntries] with no time passing changes nothing: both
    the stored data and the volatile tier are as the first run left
    them. *)
Theorem cleanup_is_idempotent w :
  faults w = [] →
  db (cleanupExpiredEntries (cleanupExpiredEntries w).2).2
    = db (cleanupExpiredEntries w).2
  ∧ memoryCache (cleanupExpiredEntries (cleanupExpiredEntries w).2).2
    = memoryCache (cleanupExpiredEntries w).2.
Proof.
  intros Hf.
  destruct (db w !! STORAGE_KEY) as [[table| |]|] eqn:Hdb.
  - destruct (cleanupExpiredEntries_healthy w table Hf Hdb)
      as (_ & Hf1 & Hn1 & Hdb1 & Hm1).
    set (w1 := (cleanupExpiredEntries w).2) in *.
    rewrite cleanupExpiredEntries_eq, get_eq, Hf1. simpl. rewrite Hdb1. simpl.
    rewrite Hn1, Hm1, !has_expired_filter. simpl. split; [done|].
    apply filter_valid_clean, has_expired_filter.
  - assert (H1 : cleanupExpiredEntries w
                 = (Ok tt, emit (EvWarn "PublicKeyStorage.cleanupExpiredEntries") w)).
    { rewrite cleanupExpiredEntries_eq, get_eq, Hf. simpl. by rewrite Hdb. }
    rewrite H1. simpl.
    rewrite cleanupExpiredEntries_eq, get_eq. simpl. rewrite Hf. simpl. by rewrite Hdb.
  - assert (H1 : cleanupExpiredEntries w = (Ok tt, w)).
    { rewrite cleanupExpiredEntries_eq, get_eq, Hf. simpl. by rewrite Hdb. }
    rewrite H1. simpl. by rewrite H1.
  - assert (H1 : cleanupExpiredEntries w = (Ok tt, w)).
    { rewrite cleanupExpiredEntries_eq, get_eq, Hf. simpl. by rewrite Hdb. }
    rewrite H1. simpl. by rewrite H1.
Qed.

Lemma cleanup_is_idempotent_witness :
  db (cleanupExpiredEntries (cleanupExpiredEntries world_25h).2).2
    = db (cleanupExpiredEntries world_25h).2
  ∧ memoryCache (cleanupExpiredEntries (cleanupExpiredEntries world_25h).2).2
    = memoryCache (cleanupExpiredEntries world_25h).2.
Proof. apply (cleanup_is_idempotent world_25h). reflexivity. Defined.

(** X11. [cleanupExpiredEntries] prunes the volatile tier only after it
    has read a table: when the store answers null (nothing stored, an
    empty string, or a read that failed) or the text does not parse, the
    call returns with both tiers untouched, expired volatile entries
    included. *)
Theorem cleanup_without_a_table_prunes_nothing w :
  (∀ table, (GenericStringStorage.get STORAGE_KEY w).1 ≠ Ok (Some (TJson table))) →
  (cleanupExpiredEntries w).1 = Ok tt
  ∧ memoryCache (cleanupExpiredEntries w).2 = memoryCache w
  ∧ db (cleanupExpiredEntries w).2 = db w.
Proof.
  intros Hno. rewrite cleanupExpiredEntries_eq.
  pose proof (get_frame STORAGE_KEY w) as (Hm & _).
  assert (Hdb : db (GenericStringStorage.get STORAGE_KEY w).2 = db w).
  { rewrite get_eq. by destruct (faults w) as [|[] fs]. }
  destruct (GenericStringStorage.get STORAGE_KEY w) as [[[[table| |]|]|err] w1];
    simpl in *; try done.
  by destruct (Hno table).
Qed.

Lemma cleanup_without_a_table_prunes_nothing_witness :
  (cleanupExpiredEntries
     (quiet_world (100 * hour) ∅ [] {[ "1337_default" := entry_25h ]})).1 = Ok tt
  ∧ memoryCache (cleanupExpiredEntries
       (quiet_world (100 * hour) ∅ [] {[ "1337_default" := entry_25h ]})).2
    = memoryCache (quiet_world (100 * hour) ∅ [] {[ "1337_default" := entry_25h ]})
  ∧ db (cleanupExpiredEntries
       (quiet_world (100 * hour) ∅ [] {[ "1337_default" := entry_25h ]})).2
    = db (quiet_world (100 * hour) ∅ [] {[ "1337_default" := entry_25h ]}).
Proof.
  apply (cleanup_without_a_table_prunes_nothing
           (quiet_world (100 * hour) ∅ [] {[ "1337_default" := entry_25h ]})).
  intros table. vm_compute. congruence.
Defined.

Lemma size_valid_plus_expired t (m : gmap string CacheEntry) :
  size (filter (λ kv, valid_at t kv.2 = true) m)
  + size (filter (λ kv, valid_at t kv.2 = false) m) = size m.
Proof.
  assert (Hext : filter (λ kv : string * CacheEntry, valid_at t kv.2 = false) m
                 = filter (λ kv, ¬ (valid_at t kv.2 = true)) m).
  { apply map_filter_ext. intros k e _. simpl. by destruct (valid_at t e). }
  rewrite Hext, <- map_size_disj_union by apply map_disjoint_filter_complement.
  by rewrite map_filter_union_complement.
Qed.

Lemma getCacheStats_eq w :
  getCacheStats w =
  match GenericStringStorage.get STORAGE_KEY w with
  | (Ok (Some (TJson table)), w1) =>
    (Ok {| memoryEntries := size (memoryCache w1);
           persistentEntries := size table;
           validEntries := size (filter (λ kv, valid_at (now w1) kv.2 = true) table);
           expiredEntries := size (filter (λ kv, valid_at (now w1) kv.2 = false) table) |},
     w1)
  | (Ok None, w1) =>
    (Ok {| memoryEntries := size (memoryCache w1); persistentEntries := 0;
           validEntries := 0; expiredEntries := 0 |}, w1)
  | (_, w1) =>
    (Ok {| memoryEntries := size (memoryCache w1); persistentEntries := 0;
           validEntries := 0; expiredEntries := 0 |},
     emit (EvWarn "PublicKeyStorage.getCacheStats") w1)
  end.
Proof.
  unfold getCacheStats, tryCatch, bind.
  by destruct (GenericStringStorage.get STORAGE_KEY w) as [[[[table| |]|]|err] w1].
Qed.

(** X12. [getCacheStats] never throws and changes neither tier; in what
    it returns, the valid and the expired entries add up to the persistent
    entries, and the memory entries are the size of the volatile tier. *)
Theorem stats_counts_add_up w :
  ∃ stats,
    (getCacheStats w).1 = Ok stats
    ∧ validEntries stats + expiredEntries stats = persistentEntries stats
    ∧ memoryEntries stats = size (memoryCache w)
    ∧ db (getCacheStats w).2 = db w
    ∧ memoryCache (getCacheStats w).2 = memoryCache w.
Proof.
  rewrite getCacheStats_eq.
  pose proof (get_frame STORAGE_KEY w) as (Hm & _).
  assert (Hdb : db (GenericStringStorage.get STORAGE_KEY w).2 = db w).
  { rewrite get_eq. by destruct (faults w) as [|[] fs]. }
  destruct (GenericStringStorage.get STORAGE_KEY w) as [[[[table| |]|]|err] w1];
    simpl in *; eexists; (split; [reflexivity|]); simpl; rewrite ?Hm; try done.
  split; [|done]. apply size_valid_plus_expired.
Qed.

Lemma pretty_N_char_no_underscore x : pretty_N_char x ≠ "_"%char.
Proof. unfold pretty_N_char. repeat case_match; done. Qed.

Lemma pretty_N_go_no_underscore x s :
  has_underscore s = false → has_underscore (pretty_N_go x s) = false.
Proof.
  revert s. induction (N.lt_wf_0 x) as [x _ IH]. intros s Hs.
  destruct (decide (x = 0)%N) as [->|Hx].
  - by rewrite pretty_N_go_0.
  - rewrite pretty_N_go_step by lia. apply IH.
    + apply N.div_lt; lia.
    + simpl. rewrite Hs, orb_false_r. apply bool_decide_eq_false_2.
      apply pretty_N_char_no_underscore.
Qed.

(** The decimal rendering of a chain id has no underscore. *)
Lemma pretty_Z_no_underscore (z : Z) : has_underscore (pretty z) = false.
Proof.
  unfold pretty, pretty_Z.
  assert (HN : ∀ n : N, has_underscore (pretty n) = false).
  { intros n. unfold pretty, pretty_N. case_decide; [done|].
    by apply pretty_N_go_no_underscore. }
  destruct z as [|p|p]; simpl; try apply HN; done.
Qed.

(** Two texts that agree and whose parts before the first underscore are
    underscore-free agree part by part. *)
Lemma split_at_underscore s1 s2 a1 a2 :
  has_underscore s1 = false → has_underscore s2 = false →
  s1 +:+ "_" +:+ a1 = s2 +:+ "_" +:+ a2 → s1 = s2 ∧ a1 = a2.
Proof.
  revert s2. induction s1 as [|c s1 IH]; intros [|c2 s2] H1 H2 Heq; simpl in *.
  - by injection Heq.
  - injection Heq as <- _. by rewrite bool_decide_eq_true_2 in H2.
  - injection Heq as -> _. by rewrite bool_decide_eq_true_2 in H1.
  - injection Heq as -> Heq. apply orb_false_iff in H1 as [_ H1].
    apply orb_false_iff in H2 as [_ H2].
    destruct (IH s2 H1 H2 Heq) as [-> ->]. done.
Qed.

(** X13. Cache keys do not collide: two calls get the same cache key only
    if their chain ids are equal and their authorities are equal once an
    absent or empty authority is read as "default".  So entries of
    different chains, or of different authorities on one chain, never
    overwrite each other. *)
Theorem cache_keys_do_not_collide chainId1 kms1 chainId2 kms2 :
  getCacheKey chainId1 kms1 = getCacheKey chainId2 kms2 →
  chainId1 = chainId2 ∧ or_default kms1 = or_default kms2.
Proof.
  unfold getCacheKey. intros Heq.
  apply split_at_underscore in Heq as [Hc Ha]; try apply pretty_Z_no_underscore.
  split; [|done]. by apply (inj pretty).
Qed.

Lemma cache_keys_do_not_collide_witness :
  (1337 = 1337)%Z ∧ or_default (Some "") = or_default None.
Proof.
  apply (cache_keys_do_not_collide 1337 (Some "") 1337 None). reflexivity.
Defined.

End KeyCacheMore.

(** * Further properties of the hook *)

Section HookMore.
Import UseFhevm.

Lemma signal_aborted_after_abort k h :
  k < length (controllers h) → signal_aborted k (abort k h) = true.
Proof.
  intros Hk. unfold signal_aborted, abort. simpl.
  by rewrite list_lookup_insert_eq.
Qed.

(** X14. Cancellation by an unset provider: [start] with no provider
    aborts the running attempt, leaves the hook idle with no controller,
    and starts nothing; when the aborted attempt settles later, with an
    instance or with an error, the hook stays idle and nothing is
    published. *)
Theorem start_without_provider_cancels c a r h :
  _abortControllerRef h = Some (thisSignal a) →
  thisSignal a < length (controllers h) →
  (start None c h).1 = Ok None
  ∧ observable (start None c h).2 = (None, st_idle, None)
  ∧ _abortControllerRef (start None c h).2 = None
  ∧ (settle a r (start None c h).2).1 = Ok tt
  ∧ observable (settle a r (start None c h).2).2 = (None, st_idle, None)
  ∧ published (settle a r (start None c h).2).2 = published h.
Proof.
  intros Href Hlen.
  destruct h as [i s e run n ref pr cr mr cs con pub]. simpl in Href, Hlen. subst ref.
  unfold start, refresh. simpl. rewrite bool_decide_eq_true_2 by done. simpl.
  match goal with |- context [settle a r ?h'] =>
    assert (Hdead : signal_aborted (thisSignal a) h' = true)
      by (unfold signal_aborted; simpl; by rewrite list_lookup_insert_eq);
    destruct (settle_aborted a r h' Hdead) as (E & O & P & _)
  end.
  by rewrite E, O, P.
Qed.

Lemma start_without_provider_cancels_witness :
  (start None None hook_with_provider_1).1 = Ok None
  ∧ observable (start None None hook_with_provider_1).2 = (None, st_idle, None)
  ∧ _abortControllerRef (start None None hook_with_provider_1).2 = None
  ∧ (settle attempt_for_provider_1 (Ok sample_instance)
       (start None None hook_with_provider_1).2).1 = Ok tt
  ∧ observable (settle attempt_for_provider_1 (Ok sample_instance)
                  (start None None hook_with_provider_1).2).2 = (None, st_idle, None)
  ∧ published (settle attempt_for_provider_1 (Ok sample_instance)
                 (start None None hook_with_provider_1).2).2
    = published hook_with_provider_1.
Proof.
  apply (start_without_provider_cancels None attempt_for_provider_1
           (Ok sample_instance) hook_with_provider_1).
  - reflexivity.
  - vm_compute. lia.
Defined.

(** X15. Cancellation by disabling: once [enabled] is false the main
    effect aborts the running attempt, drops the controller and leaves the
    hook idle, without starting anything; the aborted attempt's later
    settlement changes nothing. *)
Theorem disabling_cancels a r h :
  _abortControllerRef h = Some (thisSignal a) →
  thisSignal a < length (controllers h) →
  (mainEffect (enableEffect false h)).1 = Ok None
  ∧ observable (mainEffect (enableEffect false h)).2 = (None, st_idle, None)
  ∧ _abortControllerRef (mainEffect (enableEffect false h)).2 = None
  ∧ (settle a r (mainEffect (enableEffect false h)).2).1 = Ok tt
  ∧ observable (settle a r (mainEffect (enableEffect false h)).2).2
    = (None, st_idle, None)
  ∧ published (settle a r (mainEffect (enableEffect false h)).2).2 = published h.
Proof.
  intros Href Hlen.
  destruct h as [i s e run n ref pr cr mr cs con pub]. simpl in Href, Hlen. subst ref.
  unfold mainEffect, enableEffect. simpl.
  match goal with |- context [settle a r ?h'] =>
    assert (Hdead : signal_aborted (thisSignal a) h' = true)
      by (unfold signal_aborted; simpl; by rewrite list_lookup_insert_eq);
    destruct (settle_aborted a r h' Hdead) as (E & O & P & _)
  end.
  by rewrite E, O, P.
Qed.

Lemma disabling_cancels_witness :
  (mainEffect (enableEffect false hook_with_provider_1)).1 = Ok None
  ∧ observable (mainEffect (enableEffect false hook_with_provider_1)).2
    = (None, st_idle, None)
  ∧ _abortControllerRef (mainEffect (enableEffect false hook_with_provider_1)).2 = None
  ∧ (settle attempt_for_provider_1 (Throw IoError)
       (mainEffect (enableEffect false hook_with_provider_1)).2).1 = Ok tt
  ∧ observable (settle attempt_for_provider_1 (Throw IoError)
                  (mainEffect (enableEffect false hook_with_provider_1)).2).2
    = (None, st_idle, None)
  ∧ published (settle attempt_for_provider_1 (Throw IoError)
                 (mainEffect (enableEffect false hook_with_provider_1)).2).2
    = published hook_with_provider_1.
Proof.
  apply (disabling_cancels attempt_for_provider_1 (Throw IoError) hook_with_provider_1).
  - reflexivity.
  - vm_compute. lia.
Defined.

(** X16. Unmounting aborts the running attempt and keeps the controller
    in the ref: the attempt's later settlement changes nothing of what the
    hook shows, and a main effect that ran after it would fail its
    assertion instead of starting an attempt on the aborted signal. *)
Theorem unmount_silences_the_attempt a r h :
  _abortControllerRef h = Some (thisSignal a) →
  thisSignal a < length (controllers h) →
  _isRunning h = true →
  is_Some (_providerRef h) →
  (settle a r (unmount h)).1 = Ok tt
  ∧ observable (settle a r (unmount h)).2 = observable h
  ∧ published (settle a r (unmount h)).2 = published h
  ∧ (mainEffect (unmount h)).1
    = Throw (JsError "Assertion failed: Abort controller should not be aborted at this point")
  ∧ observable (mainEffect (unmount h)).2 = observable h.
Proof.
  intros Href Hlen Hrun [p Hp].
  destruct h as [i s e run n ref pr cr mr cs con pub].
  simpl in Href, Hlen, Hrun, Hp. subst ref run pr.
  unfold unmount. simpl.
  match goal with |- context [settle a r ?h'] =>
    assert (Hdead : signal_aborted (thisSignal a) h' = true)
      by (unfold signal_aborted; simpl; by rewrite list_lookup_insert_eq);
    destruct (settle_aborted a r h' Hdead) as (E & O & P & _)
  end.
  rewrite E, O, P. unfold mainEffect, _assert. simpl.
  unfold signal_aborted in *. simpl in *. rewrite Hdead. done.
Qed.

Lemma unmount_silences_the_attempt_witness :
  (settle attempt_for_provider_1 (Ok sample_instance) (unmount hook_with_provider_1)).1
    = Ok tt
  ∧ observable (settle attempt_for_provider_1 (Ok sample_instance)
                  (unmount hook_with_provider_1)).2 = observable hook_with_provider_1
  ∧ published (settle attempt_for_provider_1 (Ok sample_instance)
                 (unmount hook_with_provider_1)).2 = published hook_with_provider_1
  ∧ (mainEffect (unmount hook_with_provider_1)).1
    = Throw (JsError "Assertion failed: Abort controller should not be aborted at this point")
  ∧ observable (mainEffect (unmount hook_with_provider_1)).2
    = observable hook_with_provider_1.
Proof.
  apply (unmount_silences_the_attempt attempt_for_provider_1 (Ok sample_instance)
           hook_with_provider_1).
  - reflexivity.
  - vm_compute. lia.
  - reflexivity.
  - vm_compute. eauto.
Defined.

Lemma settle_keeps_running a r h : _isRunning (settle a r h).2 = _isRunning h.
Proof.
  destruct r as [i|e]; unfold settle, onFulfilled, onRejected, _assert; simpl;
    repeat (match goal with |- context [if ?b then _ else _] => destruct b end; simpl);
    done.
Qed.

(** X17. Scenario D: a failure is not final.  When the current attempt is
    rejected the hook shows the error; a [start] after that begins a new
    attempt, clears the error and shows loading; and when the new attempt
    is fulfilled the hook shows its instance as ready. *)
Theorem failed_hook_can_be_restarted p c a e i h :
  _isRunning h = true →
  signal_aborted (thisSignal a) h = false →
  thisProvider a = _providerRef h →
  observable (settle a (Throw e) h).2 = (None, st_error, Some e)
  ∧ ∃ a' h',
      start (Some p) c (settle a (Throw e) h).2 = (Ok (Some a'), h')
      ∧ thisProvider a' = Some p ∧ thisChainId a' = c
      ∧ observable h' = (None, st_loading, None)
      ∧ observable (settle a' (Ok i) h').2 = (Some i, st_ready, None).
Proof.
  intros Hrun Ha Hp.
  destruct (settle_current a (Throw e) h Ha Hp) as (_ & O & _).
  split; [exact O|].
  set (hf := (settle a (Throw e) h).2).
  assert (Hrunf : _isRunning hf = true) by (unfold hf; by rewrite settle_keeps_running).
  pose proof (start_with_provider p c hf Hrunf) as H1. cbv zeta in H1.
  destruct H1 as (Ha1 & Hcs1 & Href1 & Hp1 & Hc1 & _ & _ & Ho1 & _).
  set (a' := {| thisSignal := length (controllers_after_abort hf);
                thisProvider := Some p; thisChainId := c;
                thisRpcUrlsByChainId := _mockChainsRef hf |}) in *.
  exists a', (start (Some p) c hf).2. split.
  { rewrite <- Ha1. apply surjective_pairing. }
  split; [done|]. split; [done|]. split; [done|].
  destruct (settle_current a' (Ok i) (start (Some p) c hf).2) as (_ & O' & _).
  - unfold signal_aborted. simpl. rewrite Hcs1.
    rewrite lookup_app_r by lia. by rewrite Nat.sub_diag.
  - by rewrite Hp1.
  - exact O'.
Qed.

Lemma failed_hook_can_be_restarted_witness :
  observable (settle attempt_for_provider_1 (Throw IoError) hook_with_provider_1).2
    = (None, st_error, Some IoError)
  ∧ ∃ a' h',
      start (Some (PObj 1)) (Some 5%Z)
            (settle attempt_for_provider_1 (Throw IoError) hook_with_provider_1).2
        = (Ok (Some a'), h')
      ∧ thisProvider a' = Some (PObj 1) ∧ thisChainId a' = Some 5%Z
      ∧ observable h' = (None, st_loading, None)
      ∧ observable (settle a' (Ok sample_instance) h').2
        = (Some sample_instance, st_ready, None).
Proof.
  apply (failed_hook_can_be_restarted (PObj 1) (Some 5%Z) attempt_for_provider_1
           IoError sample_instance hook_with_provider_1); reflexivity.
Defined.

(** X18. The main effect does not abort: when it runs again while a
    controller is live (on mount it runs once on its own and once more for
    the bump of [_providerChanged]), it starts a second attempt on the same
    signal and identity, and the settlements of both attempts are stored,
    the later one last. *)
Theorem rerun_of_main_effect_shares_the_signal p c h r1 r2 :
  _isRunning h = true →
  ∃ a h2,
    (start (Some p) c h).1 = Ok (Some a)
    ∧ mainEffect (start (Some p) c h).2 = (Ok (Some a), h2)
    ∧ published (settle a r2 (settle a r1 h2).2).2 = published h ++ [(a, r1); (a, r2)]
    ∧ observable (settle a r2 (settle a r1 h2).2).2 = outcome r2.
Proof.
  intros Hrun.
  pose proof (start_with_provider p c h Hrun) as H1. cbv zeta in H1.
  destruct H1 as (Ha1 & Hcs1 & Href1 & Hp1 & Hc1 & Hrun1 & Hm1 & Ho1 & Hpub1).
  set (k := length (controllers_after_abort h)) in *.
  set (a := {| thisSignal := k; thisProvider := Some p; thisChainId := c;
               thisRpcUrlsByChainId := _mockChainsRef h |}) in *.
  destruct (start (Some p) c h) as [r h1]. simpl in *. subst r.
  destruct h1 as [i1 s1 e1 run1 n1 ref1 pr1 cr1 mr1 cs1 con1 pub1].
  simpl in *. subst.
  assert (Hlook : (controllers_after_abort h ++ [false]) !! k = Some false).
  { rewrite lookup_app_r by (unfold k; lia). unfold k. by rewrite Nat.sub_diag. }
  assert (Hmain : ∃ h2, mainEffect
            (mkHook i1 s1 e1 true n1 (Some k) (Some p) c (_mockChainsRef h)
                    (controllers_after_abort h ++ [false]) con1 (published h))
            = (Ok (Some a), h2)
            ∧ controllers h2 = controllers_after_abort h ++ [false]
            ∧ _providerRef h2 = Some p
            ∧ published h2 = published h).
  { eexists. unfold mainEffect, _assert, signal_aborted. simpl. rewrite Hlook. simpl.
    split; [reflexivity|]. done. }
  destruct Hmain as (h2 & Hmain & Hcs2 & Hp2 & Hpub2).
  exists a, h2. split; [done|]. split; [exact Hmain|].
  assert (Hlive : signal_aborted (thisSignal a) h2 = false).
  { unfold signal_aborted. simpl. by rewrite Hcs2, Hlook. }
  destruct (settle_current a r1 h2 Hlive) as (_ & _ & P1 & C1 & R1); [by rewrite Hp2|].
  assert (Hlive' : signal_aborted (thisSignal a) (settle a r1 h2).2 = false).
  { unfold signal_aborted. rewrite C1. exact Hlive. }
  destruct (settle_current a r2 (settle a r1 h2).2 Hlive') as (_ & O2 & P2 & _).
  { rewrite R1. by rewrite Hp2. }
  rewrite P2, P1, Hpub2, O2. by rewrite <- app_assoc.
Qed.

Lemma rerun_of_main_effect_shares_the_signal_witness :
  ∃ a h2,
    (start (Some (PObj 1)) (Some 5%Z) hook_mounted).1 = Ok (Some a)
    ∧ mainEffect (start (Some (PObj 1)) (Some 5%Z) hook_mounted).2 = (Ok (Some a), h2)
    ∧ published (settle a (Ok sample_instance) (settle a (Ok sample_instance) h2).2).2
      = published hook_mounted ++ [(a, Ok sample_instance); (a, Ok sample_instance)]
    ∧ observable (settle a (Ok sample_instance) (settle a (Ok sample_instance) h2).2).2
      = outcome (Ok sample_instance).
Proof.
  apply (rerun_of_main_effect_shares_the_signal (PObj 1) (Some 5%Z) hook_mounted
           (Ok sample_instance) (Ok sample_instance)).
  reflexivity.
Defined.

End HookMore.

(** * Further properties of the construction sequence *)

Section ConstructionMore.
Import Fhevm.

(** ** What a computation does to the signal *)

Lemma ks_ret ps {A} (a : A) : keeps_signal_unless ps (ret a).
Proof. by intros w. Qed.

Lemma ks_throw ps {A} e : keeps_signal_unless ps (@throw A e).
Proof. by intros w. Qed.

Lemma ks_lift ps {A} (r : Result A) : keeps_signal_unless ps (lift r).
Proof. by intros w. Qed.

Lemma ks_get_world ps : keeps_signal_unless ps get_world.
Proof. by intros w. Qed.

Lemma ks_tell ps ev : keeps_signal_unless ps (tell ev).
Proof. by intros w. Qed.

Lemma ks_set_memoryCache ps f : keeps_signal_unless ps (modify (set_memoryCache f)).
Proof. by intros w. Qed.

Lemma ks_bind ps {A B} (m : M A) (k : A → M B) :
  keeps_signal_unless ps m → (∀ a, keeps_signal_unless ps (k a)) →
  keeps_signal_unless ps (bind m k).
Proof.
  intros Hm Hk w. unfold bind. destruct (Hm w) as [Hd Ha].
  destruct (m w) as [[a|e] w']; simpl in *; [|done].
  destruct (Hk a w') as [Hd' Ha']. rewrite Hd', Hd. split; [done|].
  intros Hps. rewrite Ha', Ha; [done..|]. by rewrite Hd.
Qed.

Lemma ks_tryCatch ps {A} (m : M A) h :
  keeps_signal_unless ps m → (∀ e, keeps_signal_unless ps (h e)) →
  keeps_signal_unless ps (tryCatch m h).
Proof.
  intros Hm Hh w. unfold tryCatch. destruct (Hm w) as [Hd Ha].
  destruct (m w) as [[a|e] w']; simpl in *; [done|].
  destruct (Hh e w') as [Hd' Ha']. rewrite Hd', Hd. split; [done|].
  intros Hps. rewrite Ha', Ha; [done..|]. by rewrite Hd.
Qed.

Lemma ks_await ps {A} p (m : M A) :
  p ∈ ps → keeps_signal_unless ps m → keeps_signal_unless ps (await p m).
Proof.
  intros Hp Hm w. unfold await. destruct (Hm w) as [Hd Ha]. simpl.
  case_decide as Hcase.
  - split.
    + by destruct (aborted (m w).2).
    + intros Hps. destruct (Hps p Hp). by rewrite <- Hd.
  - done.
Qed.

Lemma ks_storage_frame ps {A} (m : M A) :
  (∀ w, storage_frame w (m w).2) → keeps_signal_unless ps m.
Proof. intros Hm w. by destruct (Hm w) as (_ & _ & -> & ->). Qed.

Lemma ks_checkAborted ps options : keeps_signal_unless ps (checkAborted options).
Proof.
  intros w. unfold checkAborted, bind, get_world.
  by destruct (signal options && aborted w).
Qed.

Ltac ks_step :=
  first
    [ apply ks_ret | apply ks_throw | apply ks_lift | apply ks_get_world
    | apply ks_tell | apply ks_set_memoryCache | apply ks_checkAborted
    | apply ks_storage_frame; first [ apply get_frame | apply set_frame ]
    | apply ks_bind; [|intros ?]
    | apply ks_tryCatch; [|intros ?]
    | match goal with
      | |- keeps_signal_unless _ (if ?b then _ else _) => destruct b
      | |- keeps_signal_unless _ (match ?x with _ => _ end) => destruct x
      end ].

Lemma ks_isValidCacheEntry ps e :
  keeps_signal_unless ps (PublicKeyStorage.isValidCacheEntry e).
Proof. unfold PublicKeyStorage.isValidCacheEntry. repeat ks_step. Qed.

Lemma ks_getCachedPublicKey ps chainId kms :
  keeps_signal_unless ps (PublicKeyStorage.getCachedPublicKey chainId kms).
Proof.
  unfold PublicKeyStorage.getCachedPublicKey, PublicKeyStorage.present_and_valid,
    JSON.parse.
  repeat first [ apply ks_isValidCacheEntry | ks_step ].
Qed.

Lemma ks_setCachedPublicKey ps chainId pk kms :
  keeps_signal_unless ps (PublicKeyStorage.setCachedPublicKey chainId pk kms).
Proof.
  unfold PublicKeyStorage.setCachedPublicKey, JSON.parse. repeat ks_step.
Qed.

Lemma ks_cleanupExpiredEntries ps :
  keeps_signal_unless ps PublicKeyStorage.cleanupExpiredEntries.
Proof.
  intros w. by destruct (cleanupExpiredEntries_signal w) as [-> ->].
Qed.

(** [createFhevmInstance] never changes the schedule. *)
Lemma createFhevmInstance_keeps_schedule ext options w :
  abortDuring (createFhevmInstance ext options w).2 = abortDuring w.
Proof.
  assert (H : keeps_signal_unless
                [AwSdkLoad; AwGetNetwork; AwCleanup; AwCacheGet; AwInitSDK;
                 AwCreateInstance; AwGetPublicKey; AwCacheSet]
                (createFhevmInstance ext options)).
  { unfold createFhevmInstance.
    repeat first
      [ apply ks_cleanupExpiredEntries | apply ks_getCachedPublicKey
      | apply ks_setCachedPublicKey
      | apply ks_await; [set_solver|]
      | ks_step ]. }
  apply H.
Qed.

(** ** What cannot make the construction fail *)

Lemma stays_calm_of_keeps_signal ps {A} (m : M A) :
  keeps_signal_unless ps m → stays_calm m.
Proof.
  intros Hm w [Ha Hd]. destruct (Hm w) as [Hd' Ha']. split.
  - rewrite Ha'; [done|]. intros p _. by rewrite Hd.
  - by rewrite Hd'.
Qed.

Lemma rc_ret {A} (a : A) : returns_calmly (ret a).
Proof. intros w Hw. split; [done|by exists a]. Qed.

Lemma rc_lift {A} (a : A) : returns_calmly (lift (Ok a)).
Proof. intros w Hw. split; [done|by exists a]. Qed.

Lemma rc_tell ev : returns_calmly (tell ev).
Proof. intros w Hw. split; [done|by exists tt]. Qed.

Lemma rc_set_memoryCache f : returns_calmly (modify (set_memoryCache f)).
Proof. intros w Hw. split; [done|by exists tt]. Qed.

Lemma rc_checkAborted options : returns_calmly (checkAborted options).
Proof.
  intros w Hw. rewrite checkAborted_quiet by apply Hw. split; [done|by exists tt].
Qed.

Lemma rc_bind {A B} (m : M A) (k : A → M B) :
  returns_calmly m → (∀ a, returns_calmly (k a)) → returns_calmly (bind m k).
Proof.
  intros Hm Hk w Hw. unfold bind. destruct (Hm w Hw) as [Hw' [a Ha]].
  destruct (m w) as [r w']. simpl in *. subst r. by apply Hk.
Qed.

Lemma rc_await {A} p (m : M A) : returns_calmly m → returns_calmly (await p m).
Proof.
  intros Hm w Hw. destruct (Hm w Hw) as [Hw' Ha].
  rewrite await_quiet by apply Hw'. done.
Qed.

(** A try block whose body returns, and one whose body may throw into a
    handler that returns. *)
Lemma rc_try {A} (m : M A) h : returns_calmly m → returns_calmly (tryCatch m h).
Proof.
  intros Hm w Hw. unfold tryCatch. destruct (Hm w Hw) as [Hw' [a Ha]].
  destruct (m w) as [r w']. simpl in *. subst r. split; [done|by exists a].
Qed.

Lemma rc_catch {A} (m : M A) h :
  stays_calm m → (∀ e, returns_calmly (h e)) → returns_calmly (tryCatch m h).
Proof.
  intros Hm Hh w Hw. unfold tryCatch. specialize (Hm w Hw).
  destruct (m w) as [[a|e] w']; simpl in *; [split; [done|by exists a]|by apply Hh].
Qed.

Lemma rc_never_throws ps {A} (m : M A) :
  keeps_signal_unless ps m → (∀ w, ∃ a, (m w).1 = Ok a) → returns_calmly m.
Proof.
  intros Hk Hm w Hw. split; [by apply (stays_calm_of_keeps_signal ps)|apply Hm].
Qed.

(** X19. Lookups cannot make the construction fail.  When the SDK loads,
    window.relayerSDK is there, initSDK resolves, createInstance resolves
    to an instance, and the signal is not aborted during the run,
    [createFhevmInstance] returns an instance -- whatever the network
    query answers, whichever IndexedDB requests reject, whatever the store
    holds, and whatever the instance's getPublicKey does. *)
Theorem lookup_failures_never_fail_construction ext options w :
  sdkLoad ext = Ok tt →
  windowSDK ext = true →
  (∀ config, initSDK ext config = Ok tt) →
  (∀ config, ∃ raw, createInstance ext config = Ok raw) →
  aborted w = false →
  abortDuring w = None →
  ∃ instance, (createFhevmInstance ext options w).1 = Ok instance.
Proof.
  intros Hload Hwin Hinit Hcreate Ha Hd.
  assert (Hall : returns_calmly (createFhevmInstance ext options)).
  { unfold createFhevmInstance. rewrite Hload, Hwin.
    repeat first
      [ apply rc_ret | apply rc_lift | apply rc_tell | apply rc_set_memoryCache
      | apply rc_checkAborted
      | apply rc_await
      | apply (rc_never_throws []); [apply ks_cleanupExpiredEntries|];
        intros ?; eexists; apply cleanupExpiredEntries_never_throws
      | apply (rc_never_throws []); [apply ks_getCachedPublicKey|];
        apply getCachedPublicKey_never_throws
      | apply rc_bind; [|intros ?]
      | rewrite Hinit
      | match goal with
        | |- context [createInstance ext ?config] =>
          destruct (Hcreate config) as [? ->]
        end
      | apply rc_try;
        solve [ repeat first [ apply rc_await | apply rc_lift | apply rc_tell
                             | apply rc_bind; [|intros ?] ] ]
      | apply rc_catch;
        [ apply (stays_calm_of_keeps_signal [AwGetNetwork; AwGetPublicKey; AwCacheSet]);
          repeat first [ apply ks_setCachedPublicKey
                       | apply ks_await; [set_solver|]
                       | ks_step ]
        | intros ? ]
      | match goal with
        | |- returns_calmly (if ?b then _ else _) => destruct b
        | |- returns_calmly (match ?x with _ => _ end) => destruct x
        end ]. }
  by destruct (Hall w) as [_ Hret].
Qed.

Lemma lookup_failures_never_fail_construction_witness :
  ∃ instance,
    (createFhevmInstance external_failing_lookups (sample_options (Some 5%Z))
       world_failing_store).1 = Ok instance.
Proof.
  apply (lookup_failures_never_fail_construction
           external_failing_lookups (sample_options (Some 5%Z)) world_failing_store);
    try reflexivity.
  intros config. by exists raw_without_key.
Defined.

(** ** What a returned instance tells about the run *)

Lemma bind_inv {A B} (m : M A) (k : A → M B) w b wf :
  bind m k w = (Ok b, wf) → ∃ a w1, m w = (Ok a, w1) ∧ k a w1 = (Ok b, wf).
Proof.
  unfold bind. destruct (m w) as [[a|e] w1]; [eauto|done].
Qed.

Lemma createFhevmInstance_ok_inv ext options w inst wf :
  createFhevmInstance ext options w = (Ok inst, wf) →
  ∃ publicKey w14,
    sdkLoad ext = Ok tt
    ∧ windowSDK ext = true
    ∧ initSDK ext (config_of options (actualChainId inst) publicKey) = Ok tt
    ∧ createInstance ext (config_of options (actualChainId inst) publicKey)
      = Ok (fhevmInstance inst)
    ∧ capturedMockChains inst = default DEFAULT_MOCK_CHAINS (mockChains options)
    ∧ (signal options = true → aborted w14 = false)
    ∧ key_write_through options (actualChainId inst) (fhevmInstance inst) publicKey w14
      = (Ok tt, wf).
Proof.
  intros H. unfold createFhevmInstance in H. cbv zeta in H.
  apply bind_inv in H as ([] & w1 & H1 & H).
  apply bind_inv in H as ([] & w2 & H2 & H).
  apply bind_inv in H as ([] & w3 & H3 & H).
  apply bind_inv in H as ([] & w4 & H4 & H).
  apply bind_inv in H as (chain & w5 & H5 & H).
  apply bind_inv in H as ([] & w6 & H6 & H).
  apply bind_inv in H as ([] & w7 & H7 & H).
  apply bind_inv in H as ([] & w8 & H8 & H).
  apply bind_inv in H as (publicKey & w9 & H9 & H).
  apply bind_inv in H as ([] & w10 & H10 & H).
  apply bind_inv in H as ([] & w11 & H11 & H).
  apply bind_inv in H as ([] & w12 & H12 & H).
  apply bind_inv in H as (raw & w13 & H13 & H).
  apply bind_inv in H as ([] & w14 & H14 & H).
  apply bind_inv in H as ([] & w15 & H15 & H).
  injection H as <- <-. simpl.
  exists publicKey, w14. split_and!.
  - clear -H2. unfold tryCatch, await, lift, bind, tell, modify, throw in H2.
    simpl in H2. by destruct (sdkLoad ext) as [[]|e].
  - clear -H4. by destruct (windowSDK ext).
  - clear -H11. unfold tryCatch, await, lift, bind, tell, modify, throw in H11.
    simpl in H11. unfold config_of.
    by destruct (initSDK ext _) as [[]|e].
  - clear -H13. unfold tryCatch, await, lift, bind, tell, modify, throw in H13.
    simpl in H13. unfold config_of.
    destruct (createInstance ext _) as [raw'|e]; [|done]. by injection H13 as -> _.
  - done.
  - intros Hs. clear -H14 Hs. unfold checkAborted, bind, get_world in H14.
    rewrite Hs in H14. simpl in H14. destruct (aborted w13) eqn:Ha; [done|].
    by injection H14 as <-.
  - exact H15.
Qed.

(** X20. An instance is returned only on the strength of the whole
    sequence: the SDK was loaded and is on [window], and both phases of the
    builder succeeded, on one and the same configuration, which is the
    profile selected for the chain id the instance reports. *)
Theorem returned_instance_was_built ext options w inst :
  (createFhevmInstance ext options w).1 = Ok inst →
  sdkLoad ext = Ok tt
  ∧ windowSDK ext = true
  ∧ ∃ publicKey,
      initSDK ext (config_of options (getChainId inst) publicKey) = Ok tt
      ∧ createInstance ext (config_of options (getChainId inst) publicKey)
        = Ok (fhevmInstance inst).
Proof.
  intros Hrun.
  destruct (createFhevmInstance ext options w) as [r wf] eqn:Heq. simpl in Hrun. subst r.
  apply createFhevmInstance_ok_inv in Heq
    as (publicKey & w14 & Hload & Hwin & Hinit & Hcreate & _).
  eauto.
Qed.

Lemma returned_instance_was_built_witness :
  sdkLoad (sample_external (Ok 5%Z)) = Ok tt
  ∧ windowSDK (sample_external (Ok 5%Z)) = true
  ∧ ∃ publicKey,
      initSDK (sample_external (Ok 5%Z))
        (config_of (sample_options (Some 5%Z)) (getChainId sample_instance) publicKey)
        = Ok tt
      ∧ createInstance (sample_external (Ok 5%Z))
          (config_of (sample_options (Some 5%Z)) (getChainId sample_instance) publicKey)
        = Ok (fhevmInstance sample_instance).
Proof.
  apply (returned_instance_was_built (sample_external (Ok 5%Z))
           (sample_options (Some 5%Z)) world_empty sample_instance).
  vm_compute. reflexivity.
Defined.

Lemma ks_key_write_through options chain raw publicKey :
  keeps_signal_unless [AwGetPublicKey; AwCacheSet]
    (key_write_through options chain raw publicKey).
Proof.
  unfold key_write_through.
  repeat first
    [ apply ks_setCachedPublicKey
    | apply ks_await; [set_solver|]
    | ks_step ].
Qed.

(** X21. Cancellation is honoured up to the creation of the instance: if
    a call that was given a signal returns an instance although the signal
    is aborted by then, the abort came while the sequence was waiting for
    the instance's public key or for the cache write after it.  An abort at
    any earlier suspension point never lets an instance through. *)
Theorem returned_instance_with_aborted_signal ext options w inst :
  signal options = true →
  (createFhevmInstance ext options w).1 = Ok inst →
  aborted (createFhevmInstance ext options w).2 = true →
  abortDuring w = Some AwGetPublicKey ∨ abortDuring w = Some AwCacheSet.
Proof.
  intros Hs Hrun Hab.
  pose proof (createFhevmInstance_keeps_schedule ext options w) as Hsched.
  destruct (createFhevmInstance ext options w) as [r wf] eqn:Heq.
  simpl in Hrun, Hab, Hsched. subst r.
  apply createFhevmInstance_ok_inv in Heq
    as (publicKey & w14 & _ & _ & _ & _ & _ & Hlive & Hlast).
  specialize (Hlive Hs).
  destruct (ks_key_write_through options (actualChainId inst) (fhevmInstance inst)
              publicKey w14) as [Hd Ha].
  rewrite Hlast in Hd, Ha. simpl in Hd, Ha.
  destruct (decide (abortDuring w = Some AwGetPublicKey)) as [|Hn1]; [by left|].
  destruct (decide (abortDuring w = Some AwCacheSet)) as [|Hn2]; [by right|].
  rewrite Ha in Hab; [congruence|].
  intros p Hp Heq. rewrite <- Hd, Hsched in Heq.
  apply elem_of_cons in Hp as [->|Hp]; [done|].
  apply list_elem_of_singleton in Hp as ->. done.
Qed.

Lemma returned_instance_with_aborted_signal_witness :
  abortDuring world_abort_during_getPublicKey = Some AwGetPublicKey
  ∨ abortDuring world_abort_during_getPublicKey = Some AwCacheSet.
Proof.
  apply (returned_instance_with_aborted_signal (sample_external (Ok 5%Z))
           (sample_options (Some 5%Z)) world_abort_during_getPublicKey sample_instance).
  - reflexivity.
  - vm_compute. reflexivity.
  - vm_compute. reflexivity.
Defined.

Lemma profile_by_predicates options inst publicKey :
  capturedMockChains inst = default DEFAULT_MOCK_CHAINS (mockChains options) →
  (isSepoliaNetwork inst = true →
   config_of options (getChainId inst) publicKey = SepoliaCfg (provider options))
  ∧ (isSepoliaNetwork inst = false → isMockNetwork inst = true →
     ∃ c url, getChainId inst = Some c
              ∧ capturedMockChains inst !! c = Some url
              ∧ config_of options (getChainId inst) publicKey
                = MockCfg c url (provider options))
  ∧ (isSepoliaNetwork inst = false → isMockNetwork inst = false →
     ∃ c, config_of options (getChainId inst) publicKey
          = DefaultCfg c (provider options) publicKey
              (kmsContractAddress options) (aclContractAddress options)).
Proof.
  intros Hmocks. unfold isSepoliaNetwork, isMockNetwork, config_of, getChainId, selectConfig.
  rewrite Hmocks.
  destruct (actualChainId inst) as [c|]; simpl.
  - destruct (decide (c = SEPOLIA_chainId)) as [->|Hc].
    + rewrite !bool_decide_eq_true_2 by done. by split_and!.
    + rewrite (bool_decide_eq_false_2 (Some c = _)) by congruence.
      rewrite (bool_decide_eq_false_2 (c = _)) by done.
      destruct (c =? 0)%Z eqn:Hz; simpl.
      * split_and!; try done.
        intros _ _. destruct (_ !! c); eauto.
      * destruct (default DEFAULT_MOCK_CHAINS (mockChains options) !! c) as [url|]
          eqn:Hm; simpl; [destruct url as [|ch url]; simpl|];
          split_and!; try done; eauto.
  - split_and!; try done; eauto.
Qed.

(** X22. The three profiles are told apart by the predicates of the
    returned instance: if it reports Sepolia, the builder got the Sepolia
    profile, also when the chain is registered as a mock chain; if it
    reports a mock network and not Sepolia, the builder got the mock
    profile with the registered endpoint; otherwise the builder got the
    default profile with the key in hand and the caller's addresses. *)
Theorem profile_matches_network_predicates ext options w inst :
  (createFhevmInstance ext options w).1 = Ok inst →
  ∃ publicKey,
    createInstance ext (config_of options (getChainId inst) publicKey)
      = Ok (fhevmInstance inst)
    ∧ (isSepoliaNetwork inst = true →
       config_of options (getChainId inst) publicKey = SepoliaCfg (provider options))
    ∧ (isSepoliaNetwork inst = false → isMockNetwork inst = true →
       ∃ c url, getChainId inst = Some c
                ∧ capturedMockChains inst !! c = Some url
                ∧ config_of options (getChainId inst) publicKey
                  = MockCfg c url (provider options))
    ∧ (isSepoliaNetwork inst = false → isMockNetwork inst = false →
       ∃ c, config_of options (getChainId inst) publicKey
            = DefaultCfg c (provider options) publicKey
                (kmsContractAddress options) (aclContractAddress options)).
Proof.
  intros Hrun.
  destruct (createFhevmInstance ext options w) as [r wf] eqn:Heq. simpl in Hrun. subst r.
  apply createFhevmInstance_ok_inv in Heq
    as (publicKey & w14 & _ & _ & _ & Hcreate & Hmocks & _).
  exists publicKey. split; [exact Hcreate|].
  by apply profile_by_predicates.
Qed.

Lemma profile_matches_network_predicates_witness :
  ∃ publicKey,
    createInstance (sample_external (Ok 5%Z))
        (config_of (sample_options (Some 5%Z)) (getChainId sample_instance) publicKey)
      = Ok (fhevmInstance sample_instance)
    ∧ (isSepoliaNetwork sample_instance = true →
       config_of (sample_options (Some 5%Z)) (getChainId sample_instance) publicKey
       = SepoliaCfg (provider (sample_options (Some 5%Z))))
    ∧ (isSepoliaNetwork sample_instance = false → isMockNetwork sample_instance = true →
       ∃ c url, getChainId sample_instance = Some c
                ∧ capturedMockChains sample_instance !! c = Some url
                ∧ config_of (sample_options (Some 5%Z)) (getChainId sample_instance) publicKey
                  = MockCfg c url (provider (sample_options (Some 5%Z))))
    ∧ (isSepoliaNetwork sample_instance = false → isMockNetwork sample_instance = false →
       ∃ c, config_of (sample_options (Some 5%Z)) (getChainId sample_instance) publicKey
            = DefaultCfg c (provider (sample_options (Some 5%Z))) publicKey
                (kmsContractAddress (sample_options (Some 5%Z)))
                (aclContractAddress (sample_options (Some 5%Z)))).
Proof.
  apply (profile_matches_network_predicates (sample_external (Ok 5%Z))
           (sample_options (Some 5%Z)) world_empty sample_instance).
  vm_compute. reflexivity.
Defined.

End ConstructionMore.

(** * Properties of the FHECounter contract *)

Section Counter.
Import FHECounter.
Local Open Scope Z_scope.

Lemma amount_of_range input : 1 ≤ amount_of input ≤ MAX_UINT32.
Proof.
  unfold amount_of, to_uint32, MAX_UINT32.
  pose proof (Z.mod_pos_bound input (2 ^ 32) ltac:(lia)).
  destruct (input `mod` 2 ^ 32 =? 0) eqn:Hz; lia.
Qed.

Lemma checked_add_Some max a b c :
  checked_add max a b = Some c ↔ a + b ≤ max ∧ c = a + b.
Proof.
  unfold checked_add. destruct (a + b <=? max) eqn:Hle; split.
  - intros [= <-]. lia.
  - by intros [_ ->].
  - done.
  - lia.
Qed.

(** The common tail of the three transactions, once the new counter value
    [c] is known. *)
Lemma tail_spec c (mk : Z → Log) s s' :
  (s1 ← new_handle (set_counter c s);
   s2 ← count_operation s1;
   Some (emit_log (mk (_currentHandle s2)) s2)) = Some s' →
  _counter s' = c
  ∧ _handles s' = <[_nextHandleId s := c]> (_handles s)
  ∧ _nextHandleId s' = _nextHandleId s + 1
  ∧ _currentHandle s' = _nextHandleId s
  ∧ operationCount s' = operationCount s + 1
  ∧ logs s' = logs s ++ [mk (_nextHandleId s)].
Proof.
  unfold new_handle, count_operation. simpl.
  destruct (checked_add MAX_UINT256 (_nextHandleId s) 1) as [n|] eqn:Hn; [|done].
  simpl. destruct (checked_add MAX_UINT256 (operationCount s) 1) as [o|] eqn:Ho; [|done].
  simpl. intros [= <-]. simpl.
  apply checked_add_Some in Hn as [_ ->]. apply checked_add_Some in Ho as [_ ->]. done.
Qed.

Lemma call_spec c s s' :
  0 ≤ _counter s ≤ MAX_UINT32 →
  call c s = Some s' →
  0 ≤ _counter s' ≤ MAX_UINT32
  ∧ _handles s' = <[_nextHandleId s := _counter s']> (_handles s)
  ∧ _nextHandleId s' = _nextHandleId s + 1
  ∧ _currentHandle s' = _nextHandleId s
  ∧ operationCount s' = operationCount s + 1
  ∧ length (logs s') = S (length (logs s)).
Proof.
  intros Hc Hcall. destruct c as [sender input|sender input|]; simpl in Hcall.
  - unfold increment in Hcall. cbv zeta in Hcall.
    destruct (checked_add MAX_UINT32 (_counter s) (amount_of input)) as [cnt|] eqn:Hadd;
      [|done].
    simpl in Hcall. apply checked_add_Some in Hadd as [Hle ->].
    apply (tail_spec _ (CounterIncremented sender)) in Hcall
      as (Hcnt & -> & -> & -> & -> & ->).
    pose proof (amount_of_range input). rewrite Hcnt, length_app. simpl.
    split_and!; try done; lia.
  - unfold decrement in Hcall. cbv zeta in Hcall.
    apply (tail_spec _ (CounterDecremented sender)) in Hcall
      as (Hcnt & -> & -> & -> & -> & ->).
    pose proof (amount_of_range input). rewrite Hcnt, length_app. simpl.
    split_and!; try done; destruct (_counter s >=? amount_of input) eqn:Hge; lia.
  - unfold reset in Hcall.
    apply (tail_spec _ CounterInitialized) in Hcall as (Hcnt & -> & -> & -> & -> & ->).
    rewrite Hcnt, length_app. simpl. unfold MAX_UINT32. split_and!; try done; lia.
Qed.

Lemma call_consistent c s s' :
  consistent s → call c s = Some s' → consistent s'.
Proof.
  intros (Hc & Hcur & Hdom) Hcall.
  destruct (call_spec c s s' Hc Hcall) as (Hc' & Hh & Hn & Hcur' & _).
  split; [done|]. split.
  - by rewrite Hh, Hcur', lookup_insert_eq.
  - intros h. rewrite Hh, Hn. destruct (decide (h = _nextHandleId s)) as [->|Hne].
    + lia.
    + rewrite lookup_insert_ne by done. intros Hs. specialize (Hdom h Hs). lia.
Qed.

Lemma constructor_consistent s0 : constructor = Some s0 → consistent s0.
Proof.
  intros [= <-]. split; [|split].
  - simpl. unfold MAX_UINT32. lia.
  - reflexivity.
  - intros h. simpl. destruct (decide (h = 1)) as [->|Hne]; [done|].
    rewrite lookup_insert_ne by done. rewrite lookup_empty. by intros [? ?].
Qed.

Lemma run_consistent calls s s' :
  consistent s → run calls s = Some s' → consistent s'.
Proof.
  revert s. induction calls as [|c rest IH]; intros s Hs Hrun; simpl in Hrun.
  - by injection Hrun as <-.
  - destruct (call c s) as [s1|] eqn:Hcall; [|done]. simpl in Hrun.
    eapply IH; [|exact Hrun]. by eapply call_consistent.
Qed.

(** X23. After deployment and any sequence of transactions that went
    through, the handle that [getCount] returns decrypts, by
    [mockDecrypt], to the counter, and the counter is a uint32. *)
Theorem current_handle_decrypts_to_counter calls s0 s :
  constructor = Some s0 →
  run calls s0 = Some s →
  mockDecrypt (getCount s) s = getDecryptedCount s
  ∧ 0 ≤ getDecryptedCount s ≤ MAX_UINT32.
Proof.
  intros Hdep Hrun.
  destruct (run_consistent calls s0 s) as (Hc & Hcur & _);
    [by apply constructor_consistent|done|].
  unfold mockDecrypt, getCount, getDecryptedCount. by rewrite Hcur.
Qed.

Lemma current_handle_decrypts_to_counter_witness :
  mockDecrypt (getCount after_sample_calls) after_sample_calls
    = getDecryptedCount after_sample_calls
  ∧ 0 ≤ getDecryptedCount after_sample_calls ≤ MAX_UINT32.
Proof.
  apply (current_handle_decrypts_to_counter sample_calls deployed after_sample_calls);
    vm_compute; reflexivity.
Defined.

Lemma run_keeps_issued_handles calls s s' h :
  consistent s → run calls s = Some s' → h < _nextHandleId s →
  _handles s' !! h = _handles s !! h.
Proof.
  revert s. induction calls as [|c rest IH]; intros s Hs Hrun Hh; simpl in Hrun.
  - by injection Hrun as <-.
  - destruct (call c s) as [s1|] eqn:Hcall; [|done]. simpl in Hrun.
    destruct Hs as (Hc & Hcur & Hdom).
    destruct (call_spec c s s1 Hc Hcall) as (_ & Hh1 & Hn1 & _).
    rewrite (IH s1); [|by eapply call_consistent|done|lia].
    rewrite Hh1. apply lookup_insert_ne. lia.
Qed.

(** X24. A handle, once issued, keeps its value: the handle that
    [getCount] returned at some point still decrypts to the counter of
    that point after any further transactions. *)
Theorem issued_handle_keeps_its_value calls1 calls2 s0 s1 s2 :
  constructor = Some s0 →
  run calls1 s0 = Some s1 →
  run calls2 s1 = Some s2 →
  mockDecrypt (getCount s1) s2 = getDecryptedCount s1.
Proof.
  intros Hdep Hrun1 Hrun2.
  assert (Hs1 : consistent s1).
  { eapply run_consistent; [|exact Hrun1]. by apply constructor_consistent. }
  destruct Hs1 as (Hc & Hcur & Hdom).
  unfold mockDecrypt, getCount, getDecryptedCount.
  rewrite (run_keeps_issued_handles calls2 s1 s2); [by rewrite Hcur|done..|].
  apply Hdom. by rewrite Hcur.
Qed.

Lemma issued_handle_keeps_its_value_witness :
  mockDecrypt (getCount after_sample_calls) after_more_calls
    = getDecryptedCount after_sample_calls.
Proof.
  apply (issued_handle_keeps_its_value sample_calls
           [Increment 7 9; Increment 8 0] deployed after_sample_calls after_more_calls);
    vm_compute; reflexivity.
Defined.

Lemma run_counts calls s s' :
  0 ≤ _counter s ≤ MAX_UINT32 →
  run calls s = Some s' →
  operationCount s' = operationCount s + Z.of_nat (length calls)
  ∧ _nextHandleId s' = _nextHandleId s + Z.of_nat (length calls)
  ∧ length (logs s') = (length (logs s) + length calls)%nat.
Proof.
  revert s. induction calls as [|c rest IH]; intros s Hc Hrun; simpl in Hrun.
  - injection Hrun as <-. simpl. split_and!; lia.
  - destruct (call c s) as [s1|] eqn:Hcall; [|done]. simpl in Hrun.
    destruct (call_spec c s s1 Hc Hcall) as (Hc1 & _ & Hn1 & _ & Ho1 & Hl1).
    destruct (IH s1 Hc1 Hrun) as (-> & -> & ->). rewrite Ho1, Hn1, Hl1.
    simpl length. split_and!; lia.
Qed.

(** X25. Every transaction that goes through is counted once, takes one
    fresh handle and emits one event: after deployment and [n]
    transactions, [getOperationCount] is [n], the next handle id is
    [n + 2], and [n + 1] events have been emitted. *)
Theorem operations_are_counted calls s0 s :
  constructor = Some s0 →
  run calls s0 = Some s →
  getOperationCount s = Z.of_nat (length calls)
  ∧ _nextHandleId s = Z.of_nat (length calls) + 2
  ∧ length (logs s) = S (length calls).
Proof.
  intros [= <-] Hrun.
  apply run_counts in Hrun as (Ho & Hn & Hl); [|simpl; unfold MAX_UINT32; lia].
  simpl in *. unfold getOperationCount. split_and!; lia.
Qed.

Lemma operations_are_counted_witness :
  getOperationCount after_sample_calls = Z.of_nat (length sample_calls)
  ∧ _nextHandleId after_sample_calls = Z.of_nat (length sample_calls) + 2
  ∧ length (logs after_sample_calls) = S (length sample_calls).
Proof.
  apply (operations_are_counted sample_calls deployed after_sample_calls);
    vm_compute; reflexivity.
Defined.

(** X26. [decrement] never underflows: as long as the handle and
    operation counters have room, it goes through, and the counter becomes
    the old counter less the amount, or zero when the amount is larger.
    The amount is the low 32 bits of the input, or 1 when those are 0. *)
Theorem decrement_saturates_at_zero sender input s :
  _nextHandleId s < MAX_UINT256 →
  operationCount s < MAX_UINT256 →
  ∃ s', decrement sender input s = Some s'
        ∧ getDecryptedCount s' = Z.max 0 (_counter s - amount_of input).
Proof.
  intros Hn Ho. unfold decrement, new_handle, count_operation, checked_add.
  cbv zeta. simpl.
  destruct (_nextHandleId s + 1 <=? MAX_UINT256) eqn:Hn'; [|lia]. simpl.
  destruct (operationCount s + 1 <=? MAX_UINT256) eqn:Ho'; [|lia]. simpl.
  eexists. split; [reflexivity|]. unfold getDecryptedCount. simpl.
  destruct (_counter s >=? amount_of input) eqn:Hge; lia.
Qed.

Lemma decrement_saturates_at_zero_witness :
  ∃ s', decrement 7 9 deployed = Some s'
        ∧ getDecryptedCount s' = Z.max 0 (_counter deployed - amount_of 9).
Proof.
  apply (decrement_saturates_at_zero 7 9 deployed); vm_compute; reflexivity.
Defined.

(** X27. [increment] is checked: as long as the handle and operation
    counters have room, it reverts exactly when the counter plus the
    amount leaves uint32, and otherwise the counter grows by the amount,
    which is at least 1 (an input whose low 32 bits are 0 adds 1). *)
Theorem increment_adds_or_reverts sender input s :
  _nextHandleId s < MAX_UINT256 →
  operationCount s < MAX_UINT256 →
  1 ≤ amount_of input ≤ MAX_UINT32
  ∧ (_counter s + amount_of input ≤ MAX_UINT32 →
     ∃ s', increment sender input s = Some s'
           ∧ getDecryptedCount s' = _counter s + amount_of input)
  ∧ (MAX_UINT32 < _counter s + amount_of input →
     increment sender input s = None).
Proof.
  intros Hn Ho. split; [apply amount_of_range|].
  unfold increment, new_handle, count_operation, checked_add. cbv zeta.
  split; intros Hsum.
  - destruct (_counter s + amount_of input <=? MAX_UINT32) eqn:Hc; [|lia]. simpl.
    destruct (_nextHandleId s + 1 <=? MAX_UINT256) eqn:Hn'; [|lia]. simpl.
    destruct (operationCount s + 1 <=? MAX_UINT256) eqn:Ho'; [|lia]. simpl.
    eexists. split; reflexivity.
  - destruct (_counter s + amount_of input <=? MAX_UINT32) eqn:Hc; [lia|]. done.
Qed.

Lemma increment_adds_or_reverts_witness :
  1 ≤ amount_of 0 ≤ MAX_UINT32
  ∧ (_counter deployed + amount_of 0 ≤ MAX_UINT32 →
     ∃ s', increment 7 0 deployed = Some s'
           ∧ getDecryptedCount s' = _counter deployed + amount_of 0)
  ∧ (MAX_UINT32 < _counter deployed + amount_of 0 →
     increment 7 0 deployed = None).
Proof.
  apply (increment_adds_or_reverts 7 0 deployed); vm_compute; reflexivity.
Defined.

End Counter.
